(** * A model of the Voisus Remote Control Client (VRCC) interface

    [src/C++/vrcc.h] declares the API of the client library and documents
    each entry point in its doc comments; the library's implementation is
    not part of the repository. The definitions below therefore follow the
    header's doc comments and, where the header is silent, the
    specification of the client core (entity cache, list/iterator facade,
    pending/active/set triads, call signaling, live radio control).

    Counters the header returns as [int] are modelled as [nat]: the
    specification describes them as unbounded monotonic counters. *)

From Stdlib Require Import String ZArith QArith List Bool Lia.
Import ListNotations.
Open Scope nat_scope.
Open Scope string_scope.

(* ------------------------------------------------------------------ *)
(** ** Dense index access ([Role_Name], [Role_Id], [Radio_Name], ...) *)

Module Dense.

(** Modelled from the spec: the bodies of the dense accessors. The header
    documents [Role_Name(int list_index)] as returning the name of the role
    "or empty string"; the index is a C [int], so negative indices and
    indices at or past [Role_ListCount] are out of range. *)
Definition dense_at {A : Type} (proj : A -> string) (l : list A) (i : Z) : string :=
  if (0 <=? i)%Z && (i <? Z.of_nat (List.length l))%Z
  then nth (Z.to_nat i) (map proj l) ""
  else "".

(** Modelled from the spec: the same bounds check for accessors whose
    not-found value is not the empty string ([Radio_NetFrequency]'s [0],
    [Joystick_ButtonCount]'s [-1], ...). *)
Definition dense_get {A B : Type} (proj : A -> B) (sentinel : B) (l : list A) (i : Z) : B :=
  if (0 <=? i)%Z && (i <? Z.of_nat (List.length l))%Z
  then nth (Z.to_nat i) (map proj l) sentinel
  else sentinel.

Definition dense_count {A : Type} (l : list A) : Z := Z.of_nat (List.length l).

Record role := mkRole { role_id : string; role_name : string }.
Record entity_state := mkEntityState { es_id : string; es_name : string }.

(** A net as a radio or a jammer lists it: [unsigned long long] frequency
    as [N], [int] fields as [Z]. *)
Record net := mkNet {
  net_name : string;
  net_id : string;
  net_frequency : N;
  net_freqhop_id : Z
}.

(** A radio: its name, the nets it may tune, and the tuned net's name, id
    and (possibly overridden) receive and transmit frequencies. *)
Record radio := mkRadio {
  radio_name : string;
  radio_nets : list net;
  radio_net_name_active : string;
  radio_net_id_active : string;
  radio_rx_frequency_active : N;
  radio_tx_frequency_active : N
}.

Record joystick := mkJoystick { joystick_name : string; joystick_button_count : Z }.
Record jammer := mkJammer { jammer_nets : list net; jammer_net_id_active : string }.
Record playsound := mkPlaysound { playsound_id : string; playsound_name : string }.

Definition Role_ListCount (roles : list role) : Z := dense_count roles.
Definition Role_Name (roles : list role) (list_index : Z) : string :=
  dense_at role_name roles list_index.
Definition Role_Id (roles : list role) (list_index : Z) : string :=
  dense_at role_id roles list_index.

Definition EntityState_ListCount (ess : list entity_state) : Z := dense_count ess.
Definition EntityState_Name (ess : list entity_state) (list_index : Z) : string :=
  dense_at es_name ess list_index.
Definition EntityState_Id (ess : list entity_state) (list_index : Z) : string :=
  dense_at es_id ess list_index.

Definition Radio_ListCount (radios : list radio) : Z := dense_count radios.
Definition Radio_Name (radios : list radio) (radio_index : Z) : string :=
  dense_at radio_name radios radio_index.

(** Per-radio accessors: "or empty string", "or 0 if radio_index is
    invalid". *)
Definition Radio_NetNameActive (radios : list radio) (radio_index : Z) : string :=
  dense_at radio_net_name_active radios radio_index.
Definition Radio_NetIDActive (radios : list radio) (radio_index : Z) : string :=
  dense_at radio_net_id_active radios radio_index.
Definition Radio_NetRxFrequencyActive (radios : list radio) (radio_index : Z) : N :=
  dense_get radio_rx_frequency_active 0%N radios radio_index.
Definition Radio_NetTxFrequencyActive (radios : list radio) (radio_index : Z) : N :=
  dense_get radio_tx_frequency_active 0%N radios radio_index.

(** Modelled from the spec: the nets of a radio, indexed by
    [(radio_index, net_index)]. An invalid radio index has no nets. *)
Definition Radio_NetListCount (radios : list radio) (radio_index : Z) : Z :=
  dense_get (fun r => dense_count (radio_nets r)) 0%Z radios radio_index.
Definition Radio_NetName (radios : list radio) (radio_index net_index : Z) : string :=
  dense_get (fun r => dense_at net_name (radio_nets r) net_index) "" radios radio_index.
Definition Radio_NetID (radios : list radio) (radio_index net_index : Z) : string :=
  dense_get (fun r => dense_at net_id (radio_nets r) net_index) "" radios radio_index.
(** "unsigned long long for frequency or 0 if none" *)
Definition Radio_NetFrequency (radios : list radio) (radio_index net_index : Z) : N :=
  dense_get (fun r => dense_get net_frequency 0%N (radio_nets r) net_index) 0%N radios radio_index.
(** "net_id for freqhop-enabled net, 0 otherwise" *)
Definition Radio_NetFreqHopNetId (radios : list radio) (radio_index net_index : Z) : Z :=
  dense_get (fun r => dense_get net_freqhop_id 0%Z (radio_nets r) net_index) 0%Z radios radio_index.

Definition Joystick_ListCount (js : list joystick) : Z := dense_count js.
Definition Joystick_Name (js : list joystick) (list_index : Z) : string :=
  dense_at joystick_name js list_index.
(** "number of buttons for joystick, or -1 on error" *)
Definition Joystick_ButtonCount (js : list joystick) (list_index : Z) : Z :=
  dense_get joystick_button_count (-1)%Z js list_index.

(** The names of the controllable live radios. *)
Definition RadCtrl_ListCount (names : list string) : Z := dense_count names.
Definition RadCtrl_Name (names : list string) (index : Z) : string :=
  dense_at (fun s => s) names index.

Definition Jammer_ListCount (jams : list jammer) : Z := dense_count jams.
Definition Jammer_NetIDActive (jams : list jammer) (jammer_index : Z) : string :=
  dense_at jammer_net_id_active jams jammer_index.
Definition Jammer_NetListCount (jams : list jammer) (jammer_index : Z) : Z :=
  dense_get (fun j => dense_count (jammer_nets j)) 0%Z jams jammer_index.
Definition Jammer_NetName (jams : list jammer) (jammer_index net_index : Z) : string :=
  dense_get (fun j => dense_at net_name (jammer_nets j) net_index) "" jams jammer_index.
Definition Jammer_NetID (jams : list jammer) (jammer_index net_index : Z) : string :=
  dense_get (fun j => dense_at net_id (jammer_nets j) net_index) "" jams jammer_index.

Definition Playsound_ListCount (ps : list playsound) : Z := dense_count ps.
Definition Playsound_Id (ps : list playsound) (playsound_index : Z) : string :=
  dense_at playsound_id ps playsound_index.

(** An index outside [[0, count - 1]]. *)
Definition out_of_range (count i : Z) : Prop := (i < 0 \/ count <= i)%Z.

End Dense.

(* ------------------------------------------------------------------ *)
(** ** Live radio control ([RadCtrl_*]) *)

Module RadCtrl.

(** A setting value carries its type tag (string, int or float). Float
    settings are modelled by rationals; the claims only use their
    not-found sentinel [-1]. *)
Inductive value :=
  | VStr (s : string)
  | VInt (z : Z)
  | VFloat (q : Q).

Definition key : Type := (string * string)%type.

Definition key_eqb (k1 k2 : key) : bool :=
  String.eqb (fst k1) (fst k2) && String.eqb (snd k1) (snd k2).

(** The client's live-radio-control state: the [(name, setting) -> value]
    store, the last error string and the error version counter. *)
Record radctrl := mkRadCtrl {
  store : list (key * value);
  error : string;
  errorVersion : nat
}.

Fixpoint lookup (k : key) (l : list (key * value)) : option value :=
  match l with
  | [] => None
  | (k', v) :: l' => if key_eqb k' k then Some v else lookup k l'
  end.

(** Insert or replace the entry of [k], keeping the order of the others. *)
Fixpoint put (k : key) (v : value) (l : list (key * value)) : list (key * value) :=
  match l with
  | [] => [(k, v)]
  | (k', v') :: l' => if key_eqb k' k then (k', v) :: l' else (k', v') :: put k v l'
  end.

(** Modelled from the spec: [RadCtrl_GetValueStr]; "string value of the
    specified setting, or empty string if not found". *)
Definition RadCtrl_GetValueStr (rc : radctrl) (name setting : string) : string :=
  match lookup (name, setting) (store rc) with
  | Some (VStr s) => s
  | _ => ""
  end.

(** Modelled from the spec: [RadCtrl_GetValueInt]; "int value of the
    specified setting, or -1 if not found". *)
Definition RadCtrl_GetValueInt (rc : radctrl) (name setting : string) : Z :=
  match lookup (name, setting) (store rc) with
  | Some (VInt z) => z
  | _ => (-1)%Z
  end.

(** Modelled from the spec: [RadCtrl_GetValueFloat]; "value of the
    specified setting, or -1 if not found". *)
Definition RadCtrl_GetValueFloat (rc : radctrl) (name setting : string) : Q :=
  match lookup (name, setting) (store rc) with
  | Some (VFloat q) => q
  | _ => (-1)%Q
  end.


(** The server's answer to a set request: it validates the new value and
    either accepts it or rejects it with an error message. The message of
    a rejection is non-empty ([String msg_head msg_tail]): the header
    reserves the empty [RadCtrl_Error] for a successful set ("or empty
    string if successful"). *)
Inductive validation :=
  | Accepted
  | Rejected (msg_head : Ascii.ascii) (msg_tail : string).

Definition server := string -> string -> value -> validation.

(** Modelled from the spec: the blocking [RadCtrl_Set*] round trip. The
    header documents that [RadCtrl_ErrorVersion] "increments once for each
    RadCtrl_Set* API call" and that [RadCtrl_Error] is the error message of
    the last set operation, "or empty string if successful"; the spec adds
    that a rejected value is not stored. *)
Definition RadCtrl_Set (srv : server) (rc : radctrl) (name setting : string) (v : value)
    : radctrl :=
  match srv name setting v with
  | Accepted =>
      {| store := put (name, setting) v (store rc);
         error := "";
         errorVersion := S (errorVersion rc) |}
  | Rejected c rest =>
      {| store := store rc;
         error := String c rest;
         errorVersion := S (errorVersion rc) |}
  end.

Definition RadCtrl_SetValueStr srv rc name setting (s : string) := RadCtrl_Set srv rc name setting (VStr s).
Definition RadCtrl_SetValueFloat srv rc name setting (q : Q) := RadCtrl_Set srv rc name setting (VFloat q).

End RadCtrl.

(* ------------------------------------------------------------------ *)
(** ** Cursor access ([Call_IDFirst]/[Call_IDNext], [Cloud_IDFirst]/...) *)

Module Cursor.

(** The header's cursor functions take no argument ([Call_IDNext()]):
    the position is client state. Both access idioms are views of one
    ordered sequence of identifiers per entity type. *)
Record cursor_view := mkCursor { ids : list string; pos : nat }.

(** Modelled from the spec: [*_IDFirst]; "32-character unique ID, or empty
    string if none"; it (re)starts the cursor. *)
Definition IDFirst (c : cursor_view) : string * cursor_view :=
  (nth 0 (ids c) "", mkCursor (ids c) 1).

(** Modelled from the spec: [*_IDNext]; the id after the previous one, or
    the empty string when exhausted. *)
Definition IDNext (c : cursor_view) : string * cursor_view :=
  (nth (pos c) (ids c) "", mkCursor (ids c) (S (pos c))).

Definition ListCount (c : cursor_view) : Z := Z.of_nat (List.length (ids c)).

(** Dense view of the same sequence. *)
Definition at_index (c : cursor_view) (i : Z) : string :=
  Dense.dense_at (fun s => s) (ids c) i.

(** The host's dense loop: [for (i = 0; i < count; i++) at(i)]. *)
Definition dense_enum (c : cursor_view) : list string :=
  map (fun i => at_index c (Z.of_nat i)) (seq 0 (Z.to_nat (ListCount c))).

(** The host's cursor loop: [for (id = first(); id != ""; id = next())],
    run with a bound [fuel] on the number of [next] calls. *)
Fixpoint next_loop (fuel : nat) (c : cursor_view) : list string :=
  match fuel with
  | O => []
  | S fuel' =>
      let (id, c') := IDNext c in
      if String.eqb id "" then [] else id :: next_loop fuel' c'
  end.

Definition cursor_enum (fuel : nat) (c : cursor_view) : list string :=
  let (id, c') := IDFirst c in
  if String.eqb id "" then [] else id :: next_loop fuel c'.

End Cursor.

(* ------------------------------------------------------------------ *)
(** ** Entity cache and its version counters *)

Module EntityCache.

Inductive etype :=
  | ERole | EEntityState | ERadio | ENet | ECall | EEndpoint
  | ECloud | EOperator | EJammer | ERadCtrl | ELicense | EPlaysound.

Scheme Equality for etype.

(** Modelled from the spec: the attribute names an entity of each type may
    carry; a delta naming another attribute is malformed. The operator
    fields are those [Operator_GetField] documents. *)
Definition schema (t : etype) : list string :=
  match t with
  | ERole => ["name"; "autotune"; "radctrl"; "calling"; "call_ptt"; "chat"]
  | EEntityState => ["name"]
  | ERadio => ["name"; "net"; "volume"; "ptt"; "crypto"]
  | ENet => ["name"; "freq"; "waveform"; "crypto"]
  | ECall => ["name"]
  | EEndpoint => ["name"; "state"; "leave_reason"]
  | ECloud => ["name"; "servers"]
  | EOperator =>
      ["role"; "clientname"; "hostname"; "connected"; "callactive"; "clientversion";
       "serverversion"]
  | EJammer => ["name"; "enabled"]
  | ERadCtrl => ["name"]
  | ELicense => ["type"; "status"]
  | EPlaysound => ["name"; "file"]
  end.

Record entity := mkEntity { ent_id : string; ent_attrs : list (string * string) }.

Record collection := mkCollection {
  items : list entity;
  version : nat;
  last_seq : N
}.

Inductive change :=
  | Add (id : string) (attrs : list (string * string))
  | Remove (id : string)
  | Update (id : string) (fields : list (string * string)).

Record delta := mkDelta { d_type : etype; d_seq : N; d_change : change }.

Definition cache := etype -> collection.

Record client := mkClient { cache_of : cache; malformed : nat }.

Definition present (id : string) (l : list entity) : bool :=
  existsb (fun e => String.eqb (ent_id e) id) l.

Definition in_schema (t : etype) (fs : list (string * string)) : bool :=
  forallb (fun p => existsb (String.eqb (fst p)) (schema t)) fs.

Definition id_ok (id : string) : bool := Nat.eqb (String.length id) 32.

(** Modelled from the spec: validation of a delta before it is applied. *)
Definition wf_change (t : etype) (l : list entity) (ch : change) : bool :=
  match ch with
  | Add id attrs => id_ok id && negb (present id l) && in_schema t attrs
  | Remove id => id_ok id && present id l
  | Update id fields => id_ok id && present id l && in_schema t fields
  end.

Fixpoint set_attr (k v : string) (l : list (string * string)) : list (string * string) :=
  match l with
  | [] => [(k, v)]
  | (k', v') :: l' => if String.eqb k' k then (k, v) :: l' else (k', v') :: set_attr k v l'
  end.

Definition set_attrs (fields attrs : list (string * string)) : list (string * string) :=
  fold_left (fun acc p => set_attr (fst p) (snd p) acc) fields attrs.

Definition apply_change (ch : change) (l : list entity) : list entity :=
  match ch with
  | Add id attrs => l ++ [mkEntity id attrs]
  | Remove id => filter (fun e => negb (String.eqb (ent_id e) id)) l
  | Update id fields =>
      map (fun e => if String.eqb (ent_id e) id
                    then mkEntity (ent_id e) (set_attrs fields (ent_attrs e))
                    else e) l
  end.

Definition update_cache (c : cache) (t : etype) (col : collection) : cache :=
  fun t' => if etype_beq t t' then col else c t'.

(** Modelled from the spec: [apply(delta)]. A delta whose sequence number
    is not above the last one applied to its collection is a duplicate or
    stale and is dropped; a malformed one is dropped and counted; any
    other delta is applied whole and bumps the version once. *)
Definition apply (cl : client) (d : delta) : client :=
  let col := cache_of cl (d_type d) in
  if (d_seq d <=? last_seq col)%N then cl
  else if wf_change (d_type d) (items col) (d_change d)
  then mkClient
         (update_cache (cache_of cl) (d_type d)
            (mkCollection (apply_change (d_change d) (items col))
                          (S (version col)) (d_seq d)))
         (malformed cl)
  else mkClient (cache_of cl) (S (malformed cl)).

Definition accepts (cl : client) (d : delta) : bool :=
  let col := cache_of cl (d_type d) in
  negb (d_seq d <=? last_seq col)%N && wf_change (d_type d) (items col) (d_change d).

(** Deltas are applied in the order the transport delivers them. *)
Definition apply_all (cl : client) (ds : list delta) : client := fold_left apply ds cl.

Definition Version (cl : client) (t : etype) : nat := version (cache_of cl t).
Definition Items (cl : client) (t : etype) : list entity := items (cache_of cl t).

Definition Role_Version (cl : client) : nat := Version cl ERole.
Definition Radio_Version (cl : client) : nat := Version cl ERadio.

End EntityCache.

(* ------------------------------------------------------------------ *)
(** ** Pending/active/set triads and the update pump *)

Module Triads.

(** The client-writable fields tracked as (last set, server-confirmed):
    the role, the entity state (vehicle) and the net of each radio. *)
Inductive tfield :=
  | FRole
  | FEntityState
  | FRadioNet (radio_index : nat).

Definition tfield_eqb (f g : tfield) : bool :=
  match f, g with
  | FRole, FRole => true
  | FEntityState, FEntityState => true
  | FRadioNet i, FRadioNet j => Nat.eqb i j
  | _, _ => false
  end.

Record triad := mkTriad { setValue : string; activeValue : string }.

(** Client state: one triad per field, the requests sent to the server in
    order, and the entity cache fed by the same pump. *)
Record state := mkState {
  triads : tfield -> triad;
  outbox : list (tfield * string);
  ecache : EntityCache.client
}.

(** Inbound server messages drained by the update pump. *)
Inductive msg :=
  | MConfirm (f : tfield) (v : string)
  | MReject (f : tfield)
  | MDisconnect
  | MDelta (d : EntityCache.delta).

Definition set_triad (tr : tfield -> triad) (f : tfield) (t : triad) : tfield -> triad :=
  fun g => if tfield_eqb f g then t else tr g.

Definition revert (t : triad) : triad := mkTriad (activeValue t) (activeValue t).

(** Modelled from the spec: [setX(value)]; [setValue] is updated at once,
    then the request is transmitted. *)
Definition set_field (f : tfield) (v : string) (st : state) : state :=
  mkState (set_triad (triads st) f (mkTriad v (activeValue (triads st f))))
          (outbox st ++ [(f, v)])
          (ecache st).

Definition Role_SetRole (role_id : string) (st : state) : state := set_field FRole role_id st.
Definition EntityState_SetEntityState (id : string) (st : state) : state :=
  set_field FEntityState id st.

Definition Role_IdSet (st : state) : string := setValue (triads st FRole).
Definition Role_IdActive (st : state) : string := activeValue (triads st FRole).
Definition EntityState_IdSet (st : state) : string := setValue (triads st FEntityState).
Definition EntityState_IdActive (st : state) : string := activeValue (triads st FEntityState).

(** Modelled from the spec: one inbound message. A confirmation sets the
    active value; a rejection reverts the set value to the active one; a
    disconnect reverts every triad; an entity delta goes to the cache. *)
Definition step (st : state) (m : msg) : state :=
  match m with
  | MConfirm f v =>
      mkState (set_triad (triads st) f (mkTriad (setValue (triads st f)) v))
              (outbox st) (ecache st)
  | MReject f =>
      mkState (set_triad (triads st) f (revert (triads st f))) (outbox st) (ecache st)
  | MDisconnect =>
      mkState (fun g => revert (triads st g)) (outbox st) (ecache st)
  | MDelta d =>
      mkState (triads st) (outbox st) (EntityCache.apply (ecache st) d)
  end.

(** [VRCC_Update]: drain the messages received since the last cycle. *)
Definition VRCC_Update (st : state) (ms : list msg) : state := fold_left step ms st.

(** Whether a message acts on field [f]. *)
Definition touches (f : tfield) (m : msg) : bool :=
  match m with
  | MConfirm g _ | MReject g => tfield_eqb f g
  | MDisconnect => true
  | MDelta _ => false
  end.

(** Whether a message is the server's reply to the request [setX(v)]. *)
Definition is_reply (f : tfield) (v : string) (m : msg) : bool :=
  match m with
  | MConfirm g w => tfield_eqb f g && String.eqb w v
  | MReject g => tfield_eqb f g
  | MDisconnect => true
  | MDelta _ => false
  end.

End Triads.

(* ------------------------------------------------------------------ *)
(** ** Calls, endpoints and their progress states *)

Module Calls.

Inductive progress := Signaling | Connected | Holding | Ended | Rejected | Timeout.

Definition progress_eqb (p q : progress) : bool :=
  match p, q with
  | Signaling, Signaling | Connected, Connected | Holding, Holding
  | Ended, Ended | Rejected, Rejected | Timeout, Timeout => true
  | _, _ => false
  end.

Record endpoint := mkEndpoint { ep_id : string; ep_state : progress }.
Record call := mkCall { call_id : string; endpoints : list endpoint }.

Record state := mkState {
  calls : list call;
  requests : list (string * string)   (** leave requests sent to the server *)
}.

Fixpoint find_ep (eid : string) (eps : list endpoint) : option progress :=
  match eps with
  | [] => None
  | e :: eps' => if String.eqb (ep_id e) eid then Some (ep_state e) else find_ep eid eps'
  end.

Fixpoint find_call (cid : string) (cs : list call) : option call :=
  match cs with
  | [] => None
  | c :: cs' => if String.eqb (call_id c) cid then Some c else find_call cid cs'
  end.

(** [Call_Endpoint_State(call_id, ep_id)]. *)
Definition Call_Endpoint_State (cs : list call) (cid eid : string) : option progress :=
  match find_call cid cs with
  | Some c => find_ep eid (endpoints c)
  | None => None
  end.

(** The local side of [Call_LeaveRequest]: the request is only sent; the
    local endpoint state changes when the server acts on it. *)
Definition Call_LeaveRequest (cid eid : string) (st : state) : state :=
  mkState (calls st) (requests st ++ [(cid, eid)]).

(** Modelled from the spec: the server's handling of a leave request, as
    the header documents it ("Only endpoints with call state of signaling
    will leave call. Endpoints in Connected and Holding states will ignore
    the request."). A signaling endpoint leaves the call; a call left with
    no endpoint is destroyed. *)
Fixpoint leave_eps (eid : string) (eps : list endpoint) : option (list endpoint) :=
  match eps with
  | [] => None
  | e :: eps' =>
      if String.eqb (ep_id e) eid
      then if progress_eqb (ep_state e) Signaling then Some eps' else None
      else option_map (cons e) (leave_eps eid eps')
  end.

Fixpoint leave_calls (cid eid : string) (cs : list call) : list call :=
  match cs with
  | [] => []
  | c :: cs' =>
      if String.eqb (call_id c) cid
      then match leave_eps eid (endpoints c) with
           | None => c :: cs'
           | Some [] => cs'
           | Some eps => mkCall (call_id c) eps :: cs'
           end
      else c :: leave_calls cid eid cs'
  end.

(** The pump applying the server's answer to a pending leave request. *)
Definition serve_leave (st : state) : state :=
  match requests st with
  | [] => st
  | (cid, eid) :: rs => mkState (leave_calls cid eid (calls st)) rs
  end.

End Calls.

(* ------------------------------------------------------------------ *)
(** ** Entity snapshots ([get(type, id)], [Operator_GetField]) *)

Module CacheView.
Import EntityCache.

(** Modelled from the spec: [get(type, id)], the current attribute
    snapshot of an entity, or "not found". *)
Fixpoint get_entity (id : string) (l : list entity) : option (list (string * string)) :=
  match l with
  | [] => None
  | e :: l' => if String.eqb (ent_id e) id then Some (ent_attrs e) else get_entity id l'
  end.

Definition get (cl : client) (t : etype) (id : string) : option (list (string * string)) :=
  get_entity id (Items cl t).

Fixpoint attr_get (k : string) (l : list (string * string)) : option string :=
  match l with
  | [] => None
  | (k', v) :: l' => if String.eqb k' k then Some v else attr_get k l'
  end.

(** Modelled from the spec: [Operator_GetField(uuid, field_name)];
    "field value, or empty string if field not found". *)
Definition Operator_GetField (cl : client) (uuid field_name : string) : string :=
  match get cl EOperator uuid with
  | Some attrs => match attr_get field_name attrs with Some v => v | None => "" end
  | None => ""
  end.

(** The shape every collection of the cache keeps: identifiers unique and
    32 characters long, attributes within the type's schema. *)
Definition wf_collection (t : etype) (l : list entity) : Prop :=
  NoDup (map ent_id l) /\
  Forall (fun e => id_ok (ent_id e) = true /\ in_schema t (ent_attrs e) = true) l.

Definition wf_cache (cl : client) : Prop := forall t, wf_collection t (Items cl t).

Definition change_id (ch : change) : string :=
  match ch with Add id _ | Remove id | Update id _ => id end.

End CacheView.

(* ------------------------------------------------------------------ *)
(** ** Endpoints of a call ([Call_Endpoint_IDFirst]/[Call_Endpoint_IDNext]) *)

Module CallCursor.
Import Calls.

(** Modelled from the spec: the endpoint cursor of a call; the endpoint ids
    of the call in order, none for an unknown call id. *)
Definition endpoint_cursor (cs : list call) (cid : string) : Cursor.cursor_view :=
  Cursor.mkCursor
    (match find_call cid cs with Some c => map ep_id (endpoints c) | None => [] end) 0.

Definition Call_Endpoint_IDFirst (cs : list call) (cid : string) : string :=
  fst (Cursor.IDFirst (endpoint_cursor cs cid)).

End CallCursor.

(* ------------------------------------------------------------------ *)
(** ** Invitation inbox ([Call_Invitation_*]) *)

Module Invitations.

(** Modelled from the spec: [CallInvitation_t] ([vrc_types.h] is not in the
    repository): call, inviting and invited endpoints, dial number. *)
Record invitation := mkInvitation {
  inv_call_id : string;
  inv_from : string;
  inv_to : string;
  inv_dial : string
}.

Record inbox := mkInbox { invites : list invitation; icursor : nat; iversion : nat }.

(** Modelled from the spec: an invitation delivered by the update pump;
    "This counter increments when any invitation is added". *)
Definition receive (b : inbox) (i : invitation) : inbox :=
  mkInbox (invites b ++ [i]) (icursor b) (S (iversion b)).

Definition receive_all (b : inbox) (is : list invitation) : inbox := fold_left receive is b.

(** Modelled from the spec: [Call_Invitation_First(&invite)]; "1 if
    invitation found, 0 otherwise", the invitation through the pointer. *)
Definition Call_Invitation_First (b : inbox) : Z * option invitation * inbox :=
  match nth_error (invites b) 0 with
  | Some i => (1%Z, Some i, mkInbox (invites b) 1 (iversion b))
  | None => (0%Z, None, mkInbox (invites b) 1 (iversion b))
  end.

(** Modelled from the spec: [Call_Invitation_Next(&invite)]. *)
Definition Call_Invitation_Next (b : inbox) : Z * option invitation * inbox :=
  match nth_error (invites b) (icursor b) with
  | Some i => (1%Z, Some i, mkInbox (invites b) (S (icursor b)) (iversion b))
  | None => (0%Z, None, mkInbox (invites b) (S (icursor b)) (iversion b))
  end.

(** Modelled from the spec: [Call_Invitation_ClearAll()]. *)
Definition Call_Invitation_ClearAll (b : inbox) : inbox := mkInbox [] 0 (iversion b).

Definition Call_Invitation_Version (b : inbox) : nat := iversion b.

(** The host's loop: [for (ok = First(&inv); ok; ok = Next(&inv))],
    bounded by [fuel] calls of [Next]. *)
Fixpoint next_loop (fuel : nat) (b : inbox) : list invitation :=
  match fuel with
  | O => []
  | S fuel' =>
      match Call_Invitation_Next b with
      | (1%Z, Some i, b') => i :: next_loop fuel' b'
      | _ => []
      end
  end.

Definition read_all (fuel : nat) (b : inbox) : list invitation :=
  match Call_Invitation_First b with
  | (1%Z, Some i, b') => i :: next_loop fuel b'
  | _ => []
  end.

End Invitations.

(* ------------------------------------------------------------------ *)
(** ** The entity deltas among the pump's messages *)

Module Pump.
Import Triads.

Definition deltas_of (ms : list msg) : list EntityCache.delta :=
  flat_map (fun m => match m with MDelta d => [d] | _ => [] end) ms.

End Pump.

(* ================================================================== *)
(** * Properties *)

Module RadCtrlFacts.
Import RadCtrl.

Lemma key_eqb_refl (k : key) : key_eqb k k = true.
Proof. destruct k; unfold key_eqb; simpl; rewrite !String.eqb_refl; reflexivity. Qed.

Lemma lookup_put_same (k : key) (v : value) (l : list (key * value)) :
  lookup k (put k v l) = Some v.
Proof.
  induction l as [|[k' v'] l IH]; simpl.
  - rewrite key_eqb_refl; reflexivity.
  - destruct (key_eqb k' k) eqn:E; simpl; rewrite E; [reflexivity | exact IH].
Qed.



(** C10: when the pair [(name, setting)] is absent from the live radio
    control store, [RadCtrl_GetValueInt] and [RadCtrl_GetValueFloat]
    return [-1] while [RadCtrl_GetValueStr] returns the empty string; and
    a stored int value [-1] reads back exactly as the absent setting. *)
Theorem radctrl_get_not_found (rc : radctrl) (name setting : string) :
  lookup (name, setting) (store rc) = None ->
  RadCtrl_GetValueInt rc name setting = (-1)%Z /\
  RadCtrl_GetValueFloat rc name setting = (-1)%Q /\
  RadCtrl_GetValueStr rc name setting = "" /\
  RadCtrl_GetValueInt
    (mkRadCtrl (put (name, setting) (VInt (-1)) (store rc)) (error rc) (errorVersion rc))
    name setting
  = RadCtrl_GetValueInt rc name setting.
Proof.
  intro H. unfold RadCtrl_GetValueInt, RadCtrl_GetValueFloat, RadCtrl_GetValueStr.
  simpl. rewrite lookup_put_same, H. repeat split.
Qed.

Lemma radctrl_get_not_found_witness :
  lookup ("R2", "freq") (store (mkRadCtrl [(("R1", "freq"), VInt 25000000)] "" 0)) = None /\
  RadCtrl_GetValueInt (mkRadCtrl [(("R1", "freq"), VInt 25000000)] "" 0) "R2" "freq" = (-1)%Z.
Proof.
  split; [reflexivity|].
  apply (radctrl_get_not_found (mkRadCtrl [(("R1", "freq"), VInt 25000000)] "" 0) "R2" "freq").
  reflexivity.
Defined.

End RadCtrlFacts.

Module DenseFacts.
Import Dense.

Lemma dense_at_out {A : Type} (proj : A -> string) (l : list A) (i : Z) :
  (i < 0 \/ Z.of_nat (List.length l) <= i)%Z -> dense_at proj l i = "".
Proof.
  intro H. unfold dense_at.
  destruct (0 <=? i)%Z eqn:E1; destruct (i <? Z.of_nat (List.length l))%Z eqn:E2;
    simpl; try reflexivity.
  apply Z.leb_le in E1. apply Z.ltb_lt in E2. lia.
Qed.

Lemma dense_get_out {A B : Type} (proj : A -> B) (s : B) (l : list A) (i : Z) :
  out_of_range (dense_count l) i -> dense_get proj s l i = s.
Proof.
  unfold out_of_range, dense_count, dense_get. intro H.
  destruct (0 <=? i)%Z eqn:E1; destruct (i <? Z.of_nat (List.length l))%Z eqn:E2;
    simpl; try reflexivity.
  apply Z.leb_le in E1. apply Z.ltb_lt in E2. lia.
Qed.

Lemma dense_at_oor {A : Type} (proj : A -> string) (l : list A) (i : Z) :
  out_of_range (dense_count l) i -> dense_at proj l i = "".
Proof. exact (dense_get_out proj "" l i). Qed.

(** An index in range selects one element, the same for every projection. *)
Lemma dense_get_elem {A : Type} (l : list A) (i : Z) :
  ~ out_of_range (dense_count l) i ->
  exists a, forall (B : Type) (proj : A -> B) (s : B), dense_get proj s l i = proj a.
Proof.
  unfold out_of_range, dense_count, dense_get. intro H.
  assert (Hn : Z.to_nat i < List.length l) by lia.
  apply nth_error_Some in Hn. destruct (nth_error l (Z.to_nat i)) as [a|] eqn:E;
    [|contradiction].
  exists a. intros B proj s.
  replace ((0 <=? i)%Z && (i <? Z.of_nat (List.length l))%Z) with true
    by (symmetry; apply andb_true_intro; split; [apply Z.leb_le | apply Z.ltb_lt]; lia).
  apply nth_error_nth. apply map_nth_error. exact E.
Qed.

Lemma out_of_range_dec (c i : Z) : out_of_range c i \/ ~ out_of_range c i.
Proof. unfold out_of_range. lia. Qed.

(** A two-level accessor ([Radio_NetName(radio_index, net_index)]) at a
    net index outside the range its count reports for that radio. *)
Lemma dense_nested_out {A C B : Type} (l : list A) (sub : A -> list C) (proj : C -> B)
    (s : B) (i j : Z) :
  out_of_range (dense_get (fun a => dense_count (sub a)) 0%Z l i) j ->
  dense_get (fun a => dense_get proj s (sub a) j) s l i = s.
Proof.
  intro H. destruct (out_of_range_dec (dense_count l) i) as [Ho|Hi].
  - apply dense_get_out. exact Ho.
  - destruct (dense_get_elem l i Hi) as [a Ha]. rewrite Ha in *.
    apply dense_get_out. exact H.
Qed.

Lemma dense_nested_count_out {A C : Type} (l : list A) (sub : A -> list C) (i : Z) :
  out_of_range (dense_count l) i -> dense_get (fun a => dense_count (sub a)) 0%Z l i = 0%Z.
Proof. apply dense_get_out. Qed.

Lemma out_of_range_count (c : Z) : out_of_range c c.
Proof. unfold out_of_range. lia. Qed.

(** C9: every dense-indexed accessor that documents a not-found value
    returns it at every index outside [[0, count - 1]], in particular one
    past the last valid index, [at(type, count(type))]. The accessors are
    the names and ids of roles, entity states, radios, joysticks, live
    radios ([RadCtrl_Name]) and playsounds ([Playsound_Id]), the tuned
    net of a radio or jammer ([Radio_NetNameActive], [Radio_NetIDActive],
    [Radio_NetRx/TxFrequencyActive]: 0, [Jammer_NetIDActive]),
    [Joystick_ButtonCount] (-1), and the nets of a radio or jammer indexed
    by [(index, net_index)] ([Radio_NetName], [Radio_NetID],
    [Radio_NetFrequency]: 0, [Radio_NetFreqHopNetId]: 0, [Jammer_NetName],
    [Jammer_NetID]). For the nets, "one past the end" is the net count of
    the given radio or jammer, and an invalid radio or jammer index has net
    count 0, so every net index is then out of range. *)
Theorem dense_one_past_end (roles : list role) (ess : list entity_state) (radios : list radio)
    (js : list joystick) (names : list string) (jams : list jammer) (ps : list playsound) :
  (* one past the last valid index *)
  (Role_Name roles (Role_ListCount roles) = "" /\
   Role_Id roles (Role_ListCount roles) = "" /\
   EntityState_Name ess (EntityState_ListCount ess) = "" /\
   EntityState_Id ess (EntityState_ListCount ess) = "" /\
   Radio_Name radios (Radio_ListCount radios) = "" /\
   Radio_NetNameActive radios (Radio_ListCount radios) = "" /\
   Radio_NetIDActive radios (Radio_ListCount radios) = "" /\
   Radio_NetRxFrequencyActive radios (Radio_ListCount radios) = 0%N /\
   Radio_NetTxFrequencyActive radios (Radio_ListCount radios) = 0%N /\
   (forall r : Z,
      Radio_NetName radios r (Radio_NetListCount radios r) = "" /\
      Radio_NetID radios r (Radio_NetListCount radios r) = "" /\
      Radio_NetFrequency radios r (Radio_NetListCount radios r) = 0%N /\
      Radio_NetFreqHopNetId radios r (Radio_NetListCount radios r) = 0%Z) /\
   Joystick_Name js (Joystick_ListCount js) = "" /\
   Joystick_ButtonCount js (Joystick_ListCount js) = (-1)%Z /\
   RadCtrl_Name names (RadCtrl_ListCount names) = "" /\
   Jammer_NetIDActive jams (Jammer_ListCount jams) = "" /\
   (forall j : Z,
      Jammer_NetName jams j (Jammer_NetListCount jams j) = "" /\
      Jammer_NetID jams j (Jammer_NetListCount jams j) = "") /\
   Playsound_Id ps (Playsound_ListCount ps) = "") /\
  (* every index outside the valid range *)
  (forall i : Z,
     (out_of_range (Role_ListCount roles) i ->
        Role_Name roles i = "" /\ Role_Id roles i = "") /\
     (out_of_range (EntityState_ListCount ess) i ->
        EntityState_Name ess i = "" /\ EntityState_Id ess i = "") /\
     (out_of_range (Radio_ListCount radios) i ->
        Radio_Name radios i = "" /\ Radio_NetNameActive radios i = "" /\
        Radio_NetIDActive radios i = "" /\
        Radio_NetRxFrequencyActive radios i = 0%N /\ Radio_NetTxFrequencyActive radios i = 0%N /\
        Radio_NetListCount radios i = 0%Z) /\
     (out_of_range (Joystick_ListCount js) i ->
        Joystick_Name js i = "" /\ Joystick_ButtonCount js i = (-1)%Z) /\
     (out_of_range (RadCtrl_ListCount names) i -> RadCtrl_Name names i = "") /\
     (out_of_range (Jammer_ListCount jams) i ->
        Jammer_NetIDActive jams i = "" /\ Jammer_NetListCount jams i = 0%Z) /\
     (out_of_range (Playsound_ListCount ps) i -> Playsound_Id ps i = "")) /\
  (forall r n : Z,
     out_of_range (Radio_NetListCount radios r) n ->
     Radio_NetName radios r n = "" /\ Radio_NetID radios r n = "" /\
     Radio_NetFrequency radios r n = 0%N /\ Radio_NetFreqHopNetId radios r n = 0%Z) /\
  (forall j n : Z,
     out_of_range (Jammer_NetListCount jams j) n ->
     Jammer_NetName jams j n = "" /\ Jammer_NetID jams j n = "").
Proof.
  assert (Hr : forall r n, out_of_range (Radio_NetListCount radios r) n ->
     Radio_NetName radios r n = "" /\ Radio_NetID radios r n = "" /\
     Radio_NetFrequency radios r n = 0%N /\ Radio_NetFreqHopNetId radios r n = 0%Z).
  { intros r n H. unfold Radio_NetListCount in H.
    repeat split; [exact (dense_nested_out radios radio_nets net_name "" r n H)
                  |exact (dense_nested_out radios radio_nets net_id "" r n H)
                  |exact (dense_nested_out radios radio_nets net_frequency 0%N r n H)
                  |exact (dense_nested_out radios radio_nets net_freqhop_id 0%Z r n H)]. }
  assert (Hj : forall j n, out_of_range (Jammer_NetListCount jams j) n ->
     Jammer_NetName jams j n = "" /\ Jammer_NetID jams j n = "").
  { intros j n H. unfold Jammer_NetListCount in H.
    split; [exact (dense_nested_out jams jammer_nets net_name "" j n H)
           |exact (dense_nested_out jams jammer_nets net_id "" j n H)]. }
  assert (Hi : forall i : Z,
     (out_of_range (Role_ListCount roles) i ->
        Role_Name roles i = "" /\ Role_Id roles i = "") /\
     (out_of_range (EntityState_ListCount ess) i ->
        EntityState_Name ess i = "" /\ EntityState_Id ess i = "") /\
     (out_of_range (Radio_ListCount radios) i ->
        Radio_Name radios i = "" /\ Radio_NetNameActive radios i = "" /\
        Radio_NetIDActive radios i = "" /\
        Radio_NetRxFrequencyActive radios i = 0%N /\ Radio_NetTxFrequencyActive radios i = 0%N /\
        Radio_NetListCount radios i = 0%Z) /\
     (out_of_range (Joystick_ListCount js) i ->
        Joystick_Name js i = "" /\ Joystick_ButtonCount js i = (-1)%Z) /\
     (out_of_range (RadCtrl_ListCount names) i -> RadCtrl_Name names i = "") /\
     (out_of_range (Jammer_ListCount jams) i ->
        Jammer_NetIDActive jams i = "" /\ Jammer_NetListCount jams i = 0%Z) /\
     (out_of_range (Playsound_ListCount ps) i -> Playsound_Id ps i = "")).
  { intro i.
    unfold Role_ListCount, EntityState_ListCount, Radio_ListCount, Joystick_ListCount,
      RadCtrl_ListCount, Jammer_ListCount, Playsound_ListCount,
      Role_Name, Role_Id, EntityState_Name, EntityState_Id, Radio_Name, Radio_NetNameActive,
      Radio_NetIDActive, Radio_NetRxFrequencyActive, Radio_NetTxFrequencyActive,
      Radio_NetListCount, Joystick_Name, Joystick_ButtonCount, RadCtrl_Name,
      Jammer_NetIDActive, Jammer_NetListCount, Playsound_Id.
    repeat match goal with
           | |- _ /\ _ => split
           | |- out_of_range _ _ -> _ => intro H
           end;
      first [apply dense_at_oor; exact H | apply dense_get_out; exact H]. }
  split; [|split; [exact Hi | split; [exact Hr | exact Hj]]].
  repeat split.
  all: try (match goal with x : Z |- _ =>
              destruct (Hr x _ (out_of_range_count _)) as (? & ? & ? & ?);
              destruct (Hj x _ (out_of_range_count _)); assumption end).
  all: unfold Role_ListCount, EntityState_ListCount, Radio_ListCount, Joystick_ListCount,
      RadCtrl_ListCount, Jammer_ListCount, Playsound_ListCount,
      Role_Name, Role_Id, EntityState_Name, EntityState_Id, Radio_Name, Radio_NetNameActive,
      Radio_NetIDActive, Radio_NetRxFrequencyActive, Radio_NetTxFrequencyActive,
      Joystick_Name, Joystick_ButtonCount, RadCtrl_Name, Jammer_NetIDActive, Playsound_Id;
    first [apply dense_at_oor | apply dense_get_out]; apply out_of_range_count.
Qed.

Lemma dense_one_past_end_witness :
  let radios := [mkRadio "R1" [mkNet "N1" "0123456789abcdef0123456789abcdef" 30000000 0]
                         "N1" "0123456789abcdef0123456789abcdef" 30000000 30000000] in
  out_of_range (Radio_NetListCount radios 0) 1 /\
  Radio_NetFrequency radios 0 1 = 0%N /\
  out_of_range (Radio_ListCount radios) (-1) /\
  Radio_NetRxFrequencyActive radios (-1) = 0%N.
Proof.
  cbv zeta.
  pose proof (dense_one_past_end [] []
    [mkRadio "R1" [mkNet "N1" "0123456789abcdef0123456789abcdef" 30000000 0]
             "N1" "0123456789abcdef0123456789abcdef" 30000000 30000000]
    [] [] [] []) as [_ [Hi [Hr _]]].
  assert (H1 : out_of_range (Radio_NetListCount
    [mkRadio "R1" [mkNet "N1" "0123456789abcdef0123456789abcdef" 30000000 0]
             "N1" "0123456789abcdef0123456789abcdef" 30000000 30000000] 0) 1)
    by (vm_compute; right; discriminate).
  assert (H2 : out_of_range (Radio_ListCount
    [mkRadio "R1" [mkNet "N1" "0123456789abcdef0123456789abcdef" 30000000 0]
             "N1" "0123456789abcdef0123456789abcdef" 30000000 30000000]) (-1))
    by (vm_compute; left; reflexivity).
  split; [exact H1|]. split; [exact (proj1 (proj2 (proj2 (Hr 0%Z 1%Z H1))))|].
  split; [exact H2|].
  exact (proj1 (proj2 (proj2 (proj2 (proj1 (proj2 (proj2 (Hi (-1)%Z))) H2))))).
Defined.

End DenseFacts.

Module CallsFacts.
Import Calls.

Lemma leave_eps_not_signaling (eid : string) (eps : list endpoint) (p : progress) :
  find_ep eid eps = Some p -> p <> Signaling -> leave_eps eid eps = None.
Proof.
  induction eps as [|e eps IH]; simpl; intros Hf Hp; [discriminate|].
  destruct (String.eqb (ep_id e) eid).
  - injection Hf as <-. destruct (ep_state e); simpl; congruence.
  - rewrite (IH Hf Hp). reflexivity.
Qed.

Lemma leave_calls_not_signaling (cid eid : string) (cs : list call) (p : progress) :
  Call_Endpoint_State cs cid eid = Some p -> p <> Signaling ->
  leave_calls cid eid cs = cs.
Proof.
  unfold Call_Endpoint_State.
  induction cs as [|c cs IH]; simpl; intros Hf Hp; [reflexivity|].
  destruct (String.eqb (call_id c) cid).
  - rewrite (leave_eps_not_signaling eid (endpoints c) p Hf Hp). reflexivity.
  - rewrite (IH Hf Hp). reflexivity.
Qed.

Lemma leave_eps_some (eid : string) (eps eps' : list endpoint) :
  leave_eps eid eps = Some eps' -> find_ep eid eps = Some Signaling.
Proof.
  revert eps'. induction eps as [|e eps IH]; simpl; intros eps' H; [discriminate|].
  destruct (String.eqb (ep_id e) eid).
  - destruct (ep_state e); simpl in H; congruence.
  - destruct (leave_eps eid eps) eqn:E; simpl in H; [|discriminate].
    exact (IH l eq_refl).
Qed.

Lemma leave_calls_changed (cid eid : string) (cs : list call) :
  leave_calls cid eid cs <> cs -> Call_Endpoint_State cs cid eid = Some Signaling.
Proof.
  unfold Call_Endpoint_State.
  induction cs as [|c cs IH]; simpl; intro H; [congruence|].
  destruct (String.eqb (call_id c) cid).
  - destruct (leave_eps eid (endpoints c)) eqn:E; [|congruence].
    exact (leave_eps_some eid (endpoints c) l E).
  - apply IH. intro H'. apply H. rewrite H'. reflexivity.
Qed.

(** C8: a leave request for an endpoint whose state is [Connected] or
    [Holding], sent and then served by the server, leaves the call state
    (every endpoint's state and membership) as it was; and a served leave
    request changes the calls only when the endpoint was [Signaling]. *)
Theorem call_leave_request_noop (st : state) (cid eid : string) :
  requests st = [] ->
  (Call_Endpoint_State (calls st) cid eid = Some Connected \/
   Call_Endpoint_State (calls st) cid eid = Some Holding) ->
  calls (Call_LeaveRequest cid eid st) = calls st /\
  serve_leave (Call_LeaveRequest cid eid st) = st /\
  (forall cs, leave_calls cid eid cs <> cs ->
              Call_Endpoint_State cs cid eid = Some Signaling).
Proof.
  intros Hr Hs. destruct st as [cs rs]; simpl in *. subst rs.
  split; [reflexivity|]. split.
  - unfold serve_leave; simpl. f_equal.
    destruct Hs as [Hs|Hs]; exact (leave_calls_not_signaling cid eid cs _ Hs ltac:(discriminate)).
  - exact (leave_calls_changed cid eid).
Qed.

Lemma call_leave_request_noop_witness :
  let st := mkState [mkCall "C1" [mkEndpoint "E1" Connected; mkEndpoint "E2" Signaling]] [] in
  serve_leave (Call_LeaveRequest "C1" "E1" st) = st.
Proof.
  cbv zeta.
  apply (call_leave_request_noop
           (mkState [mkCall "C1" [mkEndpoint "E1" Connected; mkEndpoint "E2" Signaling]] [])
           "C1" "E1"); [reflexivity | left; reflexivity].
Defined.

(** A served leave request removes a signaling endpoint from its call,
    and destroys the call when it was the last endpoint. *)
Example leave_signaling_endpoint :
  leave_calls "C1" "E2" [mkCall "C1" [mkEndpoint "E1" Connected; mkEndpoint "E2" Signaling]]
  = [mkCall "C1" [mkEndpoint "E1" Connected]] /\
  leave_calls "C1" "E2" [mkCall "C1" [mkEndpoint "E2" Signaling]] = [].
Proof. split; reflexivity. Qed.

End CallsFacts.

Module CursorFacts.
Import Cursor.

Lemma skipn_nth_cons {A : Type} (l : list A) (p : nat) (d : A) :
  p < List.length l -> skipn p l = nth p l d :: skipn (S p) l.
Proof.
  revert p. induction l as [|a l IH]; intros p H; simpl in H; [lia|].
  destruct p as [|p]; [reflexivity|].
  simpl. apply IH. lia.
Qed.

Lemma nonempty_of_len32 (s : string) : String.length s = 32 -> String.eqb s "" = false.
Proof. intro H. destruct s; [discriminate|reflexivity]. Qed.

Lemma next_loop_skipn (l : list string) (fuel p : nat) :
  Forall (fun s => String.length s = 32) l ->
  List.length l < p + fuel ->
  next_loop fuel (mkCursor l p) = skipn p l.
Proof.
  intro Hl. revert p. induction fuel as [|fuel IH]; intros p H; simpl.
  - rewrite skipn_all2; [reflexivity | lia].
  - destruct (Nat.lt_ge_cases p (List.length l)) as [Hp|Hp].
    + assert (Hx : String.length (nth p l "") = 32)
        by (apply (proj1 (Forall_forall _ l) Hl), nth_In; exact Hp).
      rewrite (nonempty_of_len32 _ Hx), (skipn_nth_cons l p "" Hp).
      f_equal. apply IH. lia.
    + rewrite (nth_overflow l "" Hp), skipn_all2 by exact Hp. reflexivity.
Qed.

Lemma cursor_enum_ids (c : cursor_view) (fuel : nat) :
  Forall (fun s => String.length s = 32) (ids c) ->
  List.length (ids c) <= fuel ->
  cursor_enum fuel c = ids c.
Proof.
  intros Hl Hf. destruct c as [l p]; simpl in *. unfold cursor_enum, IDFirst; simpl.
  destruct l as [|x l']; [reflexivity|].
  inversion Hl as [|? ? Hx Hl']; subst.
  destruct x as [|a x]; [discriminate Hx|]. simpl.
  rewrite (next_loop_skipn (String a x :: l') fuel 1 Hl) by (simpl in *; lia).
  reflexivity.
Qed.

Lemma nth_map_seq {A : Type} (f : nat -> A) (len n : nat) (d : A) :
  n < len -> nth n (map f (seq 0 len)) d = f n.
Proof.
  intro Hn.
  rewrite (nth_indep _ d (f 0)) by (rewrite length_map, length_seq; exact Hn).
  rewrite map_nth, seq_nth by exact Hn. reflexivity.
Qed.

Lemma dense_enum_ids (c : cursor_view) : dense_enum c = ids c.
Proof.
  unfold dense_enum, ListCount, at_index. rewrite Nat2Z.id.
  apply (nth_ext _ _ "" ""); rewrite ?length_map, ?length_seq; [reflexivity|].
  intros n Hn. rewrite nth_map_seq by exact Hn.
  unfold Dense.dense_at.
  replace ((0 <=? Z.of_nat n)%Z && (Z.of_nat n <? Z.of_nat (List.length (ids c)))%Z)
    with true by (symmetry; apply andb_true_intro; split; [apply Z.leb_le | apply Z.ltb_lt]; lia).
  rewrite Nat2Z.id, map_id. reflexivity.
Qed.

(** C5: with no mutation between reads, the identifiers read by the dense
    loop ([ListCount], then [at(i)] for [i] in [[0, count)]) are exactly
    those read by the cursor loop ([IDFirst], then [IDNext] until the empty
    string), for identifiers of 32 characters and a loop allowed at least
    [count] calls of [IDNext]. *)
Theorem dense_cursor_same_ids (c : cursor_view) (fuel : nat) :
  Forall (fun s => String.length s = 32) (ids c) ->
  Z.to_nat (ListCount c) <= fuel ->
  forall x, In x (dense_enum c) <-> In x (cursor_enum fuel c).
Proof.
  intros Hl Hf x. unfold ListCount in Hf. rewrite Nat2Z.id in Hf.
  rewrite dense_enum_ids, (cursor_enum_ids c fuel Hl Hf). reflexivity.
Qed.

Lemma dense_cursor_same_ids_witness :
  let c := mkCursor ["0123456789abcdef0123456789abcdef"; "fedcba9876543210fedcba9876543210"] 7 in
  In "fedcba9876543210fedcba9876543210" (cursor_enum 2 c).
Proof.
  cbv zeta.
  apply (dense_cursor_same_ids
           (mkCursor ["0123456789abcdef0123456789abcdef"; "fedcba9876543210fedcba9876543210"] 7) 2).
  - repeat constructor.
  - vm_compute. lia.
  - simpl. right. left. reflexivity.
Defined.

End CursorFacts.

Module EntityCacheFacts.
Import EntityCache.

Lemma etype_beq_refl (t : etype) : etype_beq t t = true.
Proof. destruct t; reflexivity. Qed.

Lemma etype_beq_neq (t t' : etype) : t <> t' -> etype_beq t t' = false.
Proof. destruct t, t'; simpl; congruence. Qed.

Lemma update_cache_same (c : cache) (t : etype) (col : collection) :
  update_cache c t col t = col.
Proof. unfold update_cache. rewrite etype_beq_refl. reflexivity. Qed.

Lemma update_cache_other (c : cache) (t t' : etype) (col : collection) :
  t <> t' -> update_cache c t col t' = c t'.
Proof. intro H. unfold update_cache. rewrite (etype_beq_neq t t' H). reflexivity. Qed.

(** How one [apply] acts on the collection of type [t]: either that
    collection is untouched, or [t] is the delta's type, the delta was
    accepted and the collection was replaced with a bumped version. *)
Lemma apply_cases (cl : client) (d : delta) (t : etype) :
  cache_of (apply cl d) t = cache_of cl t \/
  (t = d_type d /\ accepts cl d = true /\
   cache_of (apply cl d) t =
     mkCollection (apply_change (d_change d) (Items cl t)) (S (Version cl t)) (d_seq d)).
Proof.
  unfold apply, accepts, Items, Version.
  destruct (d_seq d <=? last_seq (cache_of cl (d_type d)))%N eqn:Es; [left; reflexivity|].
  destruct (wf_change (d_type d) (items (cache_of cl (d_type d))) (d_change d)) eqn:Ew;
    [|left; reflexivity].
  simpl. destruct (etype_eq_dec (d_type d) t) as [<-|Hne].
  - right. rewrite update_cache_same. split; [reflexivity|]. split; reflexivity.
  - left. apply update_cache_other. exact Hne.
Qed.

Lemma apply_version_step (cl : client) (d : delta) (t : etype) :
  Version cl t <= Version (apply cl d) t /\
  (Version (apply cl d) t = Version cl t -> Items (apply cl d) t = Items cl t).
Proof.
  destruct (apply_cases cl d t) as [H|[_ [_ H]]]; unfold Version, Items in *; rewrite H; simpl.
  - split; [lia | reflexivity].
  - split; lia.
Qed.

Lemma apply_last_seq_le (cl : client) (d : delta) (t : etype) :
  (last_seq (cache_of cl t) <= last_seq (cache_of (apply cl d) t))%N.
Proof.
  destruct (apply_cases cl d t) as [H|[-> [Ha H]]]; rewrite H; simpl; [lia|].
  unfold accepts in Ha. apply andb_prop in Ha. destruct Ha as [Ha _].
  apply negb_true_iff, N.leb_gt in Ha. lia.
Qed.

Lemma apply_all_app (cl : client) (ds ds' : list delta) :
  apply_all cl (ds ++ ds') = apply_all (apply_all cl ds) ds'.
Proof. unfold apply_all. apply fold_left_app. Qed.

Lemma apply_all_version (ds : list delta) (cl : client) (t : etype) :
  Version cl t <= Version (apply_all cl ds) t /\
  (Version (apply_all cl ds) t = Version cl t -> Items (apply_all cl ds) t = Items cl t).
Proof.
  revert cl. induction ds as [|d ds IH]; intro cl; simpl; [split; auto|].
  destruct (apply_version_step cl d t) as [H1 H2].
  destruct (IH (apply cl d)) as [H3 H4].
  fold (apply_all (apply cl d) ds).
  split; [lia|]. intro He.
  rewrite H4 by lia. apply H2. lia.
Qed.

Lemma apply_all_last_seq (ds : list delta) (cl : client) (t : etype) :
  (last_seq (cache_of cl t) <= last_seq (cache_of (apply_all cl ds) t))%N.
Proof.
  revert cl. induction ds as [|d ds IH]; intro cl; simpl; [lia|].
  pose proof (apply_last_seq_le cl d t). specialize (IH (apply cl d)). lia.
Qed.

Lemma firstn_add_app {A : Type} (i k : nat) (l : list A) :
  firstn (i + k) l = (firstn i l ++ firstn k (skipn i l))%list.
Proof.
  revert l. induction i as [|i IH]; intro l; [reflexivity|].
  destruct l as [|a l]; simpl; [destruct k; reflexivity|]. f_equal. apply IH.
Qed.

(** C3: along one connection, fed the deltas [ds] in order, the version
    counter of every collection observed after the first [i] deltas is at
    most the one observed after the first [j >= i] deltas; and if the
    collection's contents differ between the two observation points, the
    counter has strictly increased. *)
Theorem version_monotonic (cl : client) (ds : list delta) (t : etype) (i j : nat) :
  i <= j ->
  Version (apply_all cl (firstn i ds)) t <= Version (apply_all cl (firstn j ds)) t /\
  (Items (apply_all cl (firstn i ds)) t <> Items (apply_all cl (firstn j ds)) t ->
   Version (apply_all cl (firstn i ds)) t < Version (apply_all cl (firstn j ds)) t).
Proof.
  intro Hij. replace j with (i + (j - i)) by lia.
  rewrite firstn_add_app, apply_all_app.
  destruct (apply_all_version (firstn (j - i) (skipn i ds)) (apply_all cl (firstn i ds)) t)
    as [H1 H2].
  split; [exact H1|]. intro Hne.
  destruct (Nat.eq_dec (Version (apply_all (apply_all cl (firstn i ds))
                                  (firstn (j - i) (skipn i ds))) t)
                       (Version (apply_all cl (firstn i ds)) t)) as [He|He].
  - exfalso. apply Hne. symmetry. exact (H2 He).
  - lia.
Qed.

Lemma version_monotonic_witness :
  let cl := mkClient (fun _ => mkCollection [] 0 0) 0 in
  let ds := [mkDelta ERole 1 (Add "0123456789abcdef0123456789abcdef" [("name", "R1")]);
             mkDelta ERole 2 (Update "0123456789abcdef0123456789abcdef" [("chat", "1")])] in
  Version (apply_all cl (firstn 0 ds)) ERole <= Version (apply_all cl (firstn 2 ds)) ERole.
Proof.
  cbv zeta.
  apply (version_monotonic (mkClient (fun _ => mkCollection [] 0 0) 0)
           [mkDelta ERole 1 (Add "0123456789abcdef0123456789abcdef" [("name", "R1")]);
            mkDelta ERole 2 (Update "0123456789abcdef0123456789abcdef" [("chat", "1")])]
           ERole 0 2).
  lia.
Defined.

Lemma apply_accepted (cl : client) (d : delta) :
  accepts cl d = true ->
  cache_of (apply cl d) (d_type d) =
    mkCollection (apply_change (d_change d) (Items cl (d_type d)))
                 (S (Version cl (d_type d))) (d_seq d).
Proof.
  unfold accepts, apply, Items, Version. intro Ha.
  apply andb_prop in Ha. destruct Ha as [Hs Hw]. apply negb_true_iff in Hs.
  rewrite Hs, Hw. simpl. apply update_cache_same.
Qed.

(** C4: once a delta has been applied, delivering it again (same sequence
    number), immediately or after any further deltas, changes nothing
    (neither the cache nor any version counter); and the application of a
    delta, however many fields it changes, increments the version of its
    type exactly once and leaves every other type's version as it was. *)
Theorem apply_duplicate_idempotent (cl : client) (d : delta) (ds : list delta) :
  accepts cl d = true ->
  apply (apply_all (apply cl d) ds) d = apply_all (apply cl d) ds /\
  Version (apply cl d) (d_type d) = S (Version cl (d_type d)) /\
  (forall t, t <> d_type d -> Version (apply cl d) t = Version cl t).
Proof.
  intro Ha. pose proof (apply_accepted cl d Ha) as Hc. split; [|split].
  - pose proof (apply_all_last_seq ds (apply cl d) (d_type d)) as Hle.
    rewrite Hc in Hle; simpl in Hle.
    unfold apply at 1.
    replace (d_seq d <=? last_seq (cache_of (apply_all (apply cl d) ds) (d_type d)))%N
      with true by (symmetry; apply N.leb_le; lia).
    reflexivity.
  - unfold Version at 1. rewrite Hc. reflexivity.
  - intros t Ht. destruct (apply_cases cl d t) as [H|[Ht' _]]; [|contradiction].
    unfold Version. rewrite H. reflexivity.
Qed.

Lemma apply_duplicate_idempotent_witness :
  let id := "0123456789abcdef0123456789abcdef" in
  let cl := apply (mkClient (fun _ => mkCollection [] 0 0) 0)
                  (mkDelta ERole 1 (Add id [("name", "R1")])) in
  let d := mkDelta ERole 2 (Update id [("name", "R1b"); ("chat", "1")]) in
  Version (apply cl d) ERole = 2 /\
  apply (apply_all (apply cl d) []) d = apply_all (apply cl d) [].
Proof.
  cbv zeta.
  destruct (apply_duplicate_idempotent
              (apply (mkClient (fun _ => mkCollection [] 0 0) 0)
                     (mkDelta ERole 1 (Add "0123456789abcdef0123456789abcdef" [("name", "R1")])))
              (mkDelta ERole 2 (Update "0123456789abcdef0123456789abcdef"
                                  [("name", "R1b"); ("chat", "1")])) [])
    as [H1 [H2 _]]; [vm_compute; reflexivity|].
  split; [exact H2 | exact H1].
Defined.

(** C6: a delta that fails validation (wrong identifier length, attribute
    outside the type's schema, add of a present id, update or remove of an
    absent id) leaves the whole entity cache unchanged: no entity is
    partially updated and no version counter moves. *)
Theorem apply_malformed_unchanged (cl : client) (d : delta) :
  wf_change (d_type d) (Items cl (d_type d)) (d_change d) = false ->
  cache_of (apply cl d) = cache_of cl.
Proof.
  unfold Items. intro Hw. unfold apply.
  destruct (d_seq d <=? last_seq (cache_of cl (d_type d)))%N; [reflexivity|].
  rewrite Hw. reflexivity.
Qed.

Lemma apply_malformed_unchanged_witness :
  let cl := mkClient (fun _ => mkCollection [] 0 0) 0 in
  let d := mkDelta ERole 1 (Add "0123456789abcdef0123456789abcdef" [("name", "R1"); ("bogus", "x")]) in
  wf_change (d_type d) (Items cl (d_type d)) (d_change d) = false /\
  cache_of (apply cl d) = cache_of cl.
Proof.
  cbv zeta. split; [reflexivity|].
  apply apply_malformed_unchanged. reflexivity.
Defined.

End EntityCacheFacts.

Module TriadsFacts.
Import Triads.

Lemma tfield_eqb_true (f g : tfield) : tfield_eqb f g = true <-> f = g.
Proof.
  destruct f, g; simpl; split; intro H; try discriminate; try reflexivity.
  - apply Nat.eqb_eq in H. subst. reflexivity.
  - injection H as ->. apply Nat.eqb_refl.
Qed.

Lemma tfield_eqb_refl (f : tfield) : tfield_eqb f f = true.
Proof. apply tfield_eqb_true. reflexivity. Qed.

Lemma tfield_eqb_neq (f g : tfield) : f <> g -> tfield_eqb f g = false.
Proof.
  intro H. destruct (tfield_eqb f g) eqn:E; [|reflexivity].
  apply tfield_eqb_true in E. contradiction.
Qed.

Lemma set_triad_same (tr : tfield -> triad) (f : tfield) (t : triad) :
  set_triad tr f t f = t.
Proof. unfold set_triad. rewrite tfield_eqb_refl. reflexivity. Qed.

Lemma set_triad_other (tr : tfield -> triad) (f g : tfield) (t : triad) :
  f <> g -> set_triad tr f t g = tr g.
Proof. intro H. unfold set_triad. rewrite (tfield_eqb_neq f g H). reflexivity. Qed.

Lemma step_untouched (st : state) (m : msg) (f : tfield) :
  touches f m = false -> triads (step st m) f = triads st f.
Proof.
  destruct m as [g w|g| |d]; simpl; intro H; try reflexivity; try discriminate.
  - apply set_triad_other. intro E. subst. rewrite tfield_eqb_refl in H. discriminate.
  - apply set_triad_other. intro E. subst. rewrite tfield_eqb_refl in H. discriminate.
Qed.

Lemma update_untouched (ms : list msg) (st : state) (f : tfield) :
  Forall (fun m => touches f m = false) ms ->
  triads (VRCC_Update st ms) f = triads st f.
Proof.
  revert st. induction ms as [|m ms IH]; intros st H; [reflexivity|].
  inversion H as [|? ? Hm Hms]; subst.
  change (triads (VRCC_Update (step st m) ms) f = triads st f).
  rewrite (IH (step st m) Hms). apply step_untouched. exact Hm.
Qed.

Lemma update_cycles (cycles : list (list msg)) (st : state) :
  fold_left VRCC_Update cycles st = VRCC_Update st (concat cycles).
Proof.
  revert st. induction cycles as [|ms cycles IH]; intro st; [reflexivity|].
  simpl. rewrite IH. unfold VRCC_Update. rewrite fold_left_app. reflexivity.
Qed.

(** C2: after [setX(v)] the set value of X is [v] at once. Then let any
    number of update pump cycles ([VRCC_Update]) drain any messages,
    among them, at some point, the server's reply to that request, and
    after it only messages that do not act on X. The triad of X has then
    converged: either the reply confirmed [v] and the active value is [v],
    or the server rejected the request (or the connection dropped) and the
    set value has been reset to the active value. *)
Theorem triad_converges (st : state) (f : tfield) (v : string)
    (cycles : list (list msg)) (others : list msg) (reply : msg) (later : list msg) :
  concat cycles = (others ++ reply :: later)%list ->
  is_reply f v reply = true ->
  Forall (fun m => touches f m = false) later ->
  let st' := fold_left VRCC_Update cycles (set_field f v st) in
  setValue (triads (set_field f v st) f) = v /\
  ((reply = MConfirm f v /\ activeValue (triads st' f) = v) \/
   (reply <> MConfirm f v /\ setValue (triads st' f) = activeValue (triads st' f))).
Proof.
  intros Hc Hr Hl. cbv zeta. split.
  { unfold set_field. simpl. rewrite set_triad_same. reflexivity. }
  rewrite update_cycles, Hc. unfold VRCC_Update. rewrite fold_left_app. simpl.
  pose proof (update_untouched later (step (fold_left step others (set_field f v st)) reply) f Hl)
    as Hu.
  unfold VRCC_Update in Hu. rewrite Hu.
  destruct reply as [g w|g| |d]; simpl in Hr.
  - apply andb_prop in Hr. destruct Hr as [Hg Hw].
    apply tfield_eqb_true in Hg. apply String.eqb_eq in Hw. subst g w.
    left. simpl. rewrite set_triad_same. split; reflexivity.
  - apply tfield_eqb_true in Hr. subst g.
    right. simpl. rewrite set_triad_same. split; [discriminate | reflexivity].
  - right. simpl. split; [discriminate | reflexivity].
  - discriminate.
Qed.

Lemma triad_converges_witness :
  let st := mkState (fun _ => mkTriad "" "") [] (EntityCache.mkClient (fun _ => EntityCache.mkCollection [] 0 0) 0) in
  Role_IdActive
    (fold_left VRCC_Update
       [[MReject FRole]; [MConfirm FEntityState "E1"; MConfirm FRole "0123456789abcdef0123456789abcdef"];
        [MConfirm FEntityState "E2"]]
       (Role_SetRole "0123456789abcdef0123456789abcdef" st))
  = "0123456789abcdef0123456789abcdef".
Proof.
  cbv zeta.
  destruct (triad_converges
              (mkState (fun _ => mkTriad "" "") []
                       (EntityCache.mkClient (fun _ => EntityCache.mkCollection [] 0 0) 0))
              FRole "0123456789abcdef0123456789abcdef"
              [[MReject FRole]; [MConfirm FEntityState "E1"; MConfirm FRole "0123456789abcdef0123456789abcdef"];
               [MConfirm FEntityState "E2"]]
              [MReject FRole; MConfirm FEntityState "E1"]
              (MConfirm FRole "0123456789abcdef0123456789abcdef")
              [MConfirm FEntityState "E2"])
    as [_ [[_ H]|[H _]]]; [reflexivity | reflexivity | repeat constructor | exact H | ].
  exfalso. apply H. reflexivity.
Defined.

(** C7: a set on field X ([Role_SetRole] for X = Role) writes only the set
    value of X's own triad: X's active value, every other field's triad
    (in particular the set and active values of the Entity-State triad)
    and the entity cache are unchanged. *)
Theorem set_field_frame (st : state) (f g : tfield) (v : string) :
  g <> f ->
  triads (set_field f v st) g = triads st g /\
  setValue (triads (set_field f v st) f) = v /\
  activeValue (triads (set_field f v st) f) = activeValue (triads st f) /\
  ecache (set_field f v st) = ecache st /\
  EntityState_IdSet (Role_SetRole v st) = EntityState_IdSet st /\
  EntityState_IdActive (Role_SetRole v st) = EntityState_IdActive st.
Proof.
  intro Hgf. unfold set_field, Role_SetRole, EntityState_IdSet, EntityState_IdActive; simpl.
  rewrite !set_triad_same.
  rewrite set_triad_other by (intro E; apply Hgf; symmetry; exact E).
  rewrite set_triad_other by discriminate.
  repeat split.
Qed.

Lemma set_field_frame_witness :
  let st := mkState (fun _ => mkTriad "a" "a") [] (EntityCache.mkClient (fun _ => EntityCache.mkCollection [] 0 0) 0) in
  triads (Role_SetRole "0123456789abcdef0123456789abcdef" st) FEntityState = triads st FEntityState.
Proof.
  cbv zeta.
  apply (set_field_frame
           (mkState (fun _ => mkTriad "a" "a") []
                    (EntityCache.mkClient (fun _ => EntityCache.mkCollection [] 0 0) 0))
           FRole FEntityState "0123456789abcdef0123456789abcdef").
  discriminate.
Defined.

End TriadsFacts.

(* ================================================================== *)
(** * Further properties of the interface *)

Module RadCtrlMore.
Import RadCtrl.

Lemma key_eqb_eq (a b : key) : key_eqb a b = true <-> a = b.
Proof.
  destruct a as [a1 a2], b as [b1 b2]; unfold key_eqb; simpl.
  rewrite andb_true_iff, !String.eqb_eq. split; [intros [-> ->]; reflexivity|].
  intro H. injection H as -> ->. split; reflexivity.
Qed.

Lemma lookup_put_other (k k2 : key) (v : value) (l : list (key * value)) :
  k <> k2 -> lookup k2 (put k v l) = lookup k2 l.
Proof.
  intro Hne. induction l as [|[k' v'] l IH]; simpl.
  - destruct (key_eqb k k2) eqn:E; [apply key_eqb_eq in E; contradiction | reflexivity].
  - destruct (key_eqb k' k) eqn:E1; simpl.
    + apply key_eqb_eq in E1. subst k'.
      destruct (key_eqb k k2) eqn:E2; [apply key_eqb_eq in E2; contradiction | reflexivity].
    + destruct (key_eqb k' k2); [reflexivity | exact IH].
Qed.

(** A set of any type on [(name, setting)], accepted or rejected, leaves
    the value read for every other [(name', setting')] unchanged, through
    all three getters. *)
Theorem radctrl_set_frame (srv : server) (rc : radctrl) (name setting : string) (v : value)
    (name' setting' : string) :
  (name', setting') <> (name, setting) ->
  let rc' := RadCtrl_Set srv rc name setting v in
  RadCtrl_GetValueStr rc' name' setting' = RadCtrl_GetValueStr rc name' setting' /\
  RadCtrl_GetValueInt rc' name' setting' = RadCtrl_GetValueInt rc name' setting' /\
  RadCtrl_GetValueFloat rc' name' setting' = RadCtrl_GetValueFloat rc name' setting'.
Proof.
  intro Hne. cbv zeta. unfold RadCtrl_Set.
  destruct (srv name setting v); unfold RadCtrl_GetValueStr, RadCtrl_GetValueInt,
    RadCtrl_GetValueFloat; simpl; [|repeat split].
  rewrite lookup_put_other by (intro E; apply Hne; symmetry; exact E).
  repeat split.
Qed.

Lemma radctrl_set_frame_witness :
  let rc := mkRadCtrl [(("R1", "freq"), VInt 25000000)] "" 0 in
  RadCtrl_GetValueInt (RadCtrl_Set (fun _ _ _ => Accepted) rc "R2" "freq" (VInt 30000000)) "R1" "freq"
  = 25000000%Z.
Proof.
  cbv zeta.
  destruct (radctrl_set_frame (fun _ _ _ => Accepted) (mkRadCtrl [(("R1", "freq"), VInt 25000000)] "" 0)
              "R2" "freq" (VInt 30000000) "R1" "freq") as [_ [H _]]; [discriminate|].
  rewrite H. reflexivity.
Defined.

(** An accepted [RadCtrl_SetValueStr] or [RadCtrl_SetValueFloat] reads
    back the new value through the getter of the same type; a rejected one
    leaves the whole store as it was. *)
Theorem radctrl_set_str_float_readback (srv : server) (rc : radctrl) (name setting : string)
    (s : string) (q : Q) :
  match srv name setting (VStr s) with
  | Accepted => RadCtrl_GetValueStr (RadCtrl_SetValueStr srv rc name setting s) name setting = s
  | Rejected _ _ => store (RadCtrl_SetValueStr srv rc name setting s) = store rc
  end /\
  match srv name setting (VFloat q) with
  | Accepted => RadCtrl_GetValueFloat (RadCtrl_SetValueFloat srv rc name setting q) name setting = q
  | Rejected _ _ => store (RadCtrl_SetValueFloat srv rc name setting q) = store rc
  end.
Proof.
  unfold RadCtrl_SetValueStr, RadCtrl_SetValueFloat, RadCtrl_Set.
  split; [destruct (srv name setting (VStr s)) | destruct (srv name setting (VFloat q))];
    try reflexivity;
    unfold RadCtrl_GetValueStr, RadCtrl_GetValueFloat; simpl;
    rewrite RadCtrlFacts.lookup_put_same; reflexivity.
Qed.

End RadCtrlMore.

Module CursorMore.
Import Cursor.

Lemma nth_nonempty_overflow (l : list string) (p : nat) :
  Forall (fun s => String.length s = 32) l -> nth p l "" = "" -> List.length l <= p.
Proof.
  intros Hl H. destruct (Nat.lt_ge_cases p (List.length l)) as [Hp|Hp]; [|exact Hp].
  exfalso. assert (Hx : String.length (nth p l "") = 32)
    by (apply (proj1 (Forall_forall _ l) Hl), nth_In; exact Hp).
  rewrite H in Hx. discriminate.
Qed.

Lemma iter_next (k : nat) (c : cursor_view) :
  Nat.iter k (fun c => snd (IDNext c)) c = mkCursor (ids c) (pos c + k).
Proof.
  induction k as [|k IH].
  - destruct c; simpl. rewrite Nat.add_0_r. reflexivity.
  - rewrite Nat.iter_succ, IH. unfold IDNext; simpl. f_equal. lia.
Qed.

(** Once [*_IDNext] has returned the empty string over 32-character ids,
    every further call of [*_IDNext] returns the empty string too: the
    cursor stays exhausted until [*_IDFirst] restarts it. *)
Theorem cursor_exhausted_stays (c : cursor_view) (k : nat) :
  Forall (fun s => String.length s = 32) (ids c) ->
  fst (IDNext c) = "" ->
  fst (IDNext (Nat.iter k (fun c => snd (IDNext c)) (snd (IDNext c)))) = "".
Proof.
  intros Hl H. simpl in H.
  pose proof (nth_nonempty_overflow (ids c) (pos c) Hl H) as Hp.
  rewrite iter_next. simpl. apply nth_overflow. lia.
Qed.

Lemma cursor_exhausted_stays_witness :
  let c := mkCursor ["0123456789abcdef0123456789abcdef"] 1 in
  fst (IDNext (Nat.iter 3 (fun c => snd (IDNext c)) (snd (IDNext c)))) = "".
Proof.
  cbv zeta.
  apply (cursor_exhausted_stays (mkCursor ["0123456789abcdef0123456789abcdef"] 1) 3);
    [repeat constructor | reflexivity].
Defined.

End CursorMore.

Module InvitationsFacts.
Import Invitations.

Lemma inv_next_loop_skipn (l : list invitation) (fuel p v : nat) :
  List.length l < p + fuel -> next_loop fuel (mkInbox l p v) = skipn p l.
Proof.
  revert p. induction fuel as [|fuel IH]; intros p H; simpl.
  - rewrite skipn_all2; [reflexivity | lia].
  - unfold Call_Invitation_Next; simpl.
    destruct (nth_error l p) as [i|] eqn:E.
    + rewrite IH by lia.
      assert (Hp : p < List.length l) by (apply nth_error_Some; congruence).
      rewrite (CursorFacts.skipn_nth_cons l p i Hp).
      rewrite (nth_error_nth l p i E). reflexivity.
    + apply nth_error_None in E. rewrite skipn_all2 by exact E. reflexivity.
Qed.

(** The host's loop [Call_Invitation_First] / [Call_Invitation_Next] until
    0 reads every invitation of the inbox, in arrival order, when allowed
    at least as many [Next] calls as there are invitations. *)
Theorem invitation_read_all (b : inbox) (fuel : nat) :
  List.length (invites b) <= fuel -> read_all fuel b = invites b.
Proof.
  intro Hf. destruct b as [l p v]; simpl in *.
  unfold read_all, Call_Invitation_First; simpl.
  destruct l as [|i l]; simpl; [reflexivity|].
  rewrite (inv_next_loop_skipn (i :: l) fuel 1 v) by (simpl in *; lia). reflexivity.
Qed.

Lemma invitation_read_all_witness :
  read_all 2 (receive_all (mkInbox [] 0 0)
                [mkInvitation "C1" "E1" "E2" ""; mkInvitation "C2" "E3" "E2" "5551234"])
  = [mkInvitation "C1" "E1" "E2" ""; mkInvitation "C2" "E3" "E2" "5551234"].
Proof. apply invitation_read_all. simpl. lia. Defined.

(** Received invitations accumulate behind the ones already held (none
    ever expires), [Call_Invitation_Version] counts every one received,
    and [Call_Invitation_ClearAll] empties the inbox ([First] then returns
    0) without moving the version counter. *)
Theorem invitation_inbox_lifecycle (b : inbox) (is : list invitation) :
  invites (receive_all b is) = (invites b ++ is)%list /\
  Call_Invitation_Version (receive_all b is) = Call_Invitation_Version b + List.length is /\
  fst (fst (Call_Invitation_First (Call_Invitation_ClearAll (receive_all b is)))) = 0%Z /\
  Call_Invitation_Version (Call_Invitation_ClearAll (receive_all b is))
  = Call_Invitation_Version b + List.length is.
Proof.
  assert (H : invites (receive_all b is) = (invites b ++ is)%list /\
              iversion (receive_all b is) = iversion b + List.length is).
  { revert b. induction is as [|i is IH]; intro b; simpl.
    - rewrite app_nil_r, Nat.add_0_r. split; reflexivity.
    - destruct (IH (receive b i)) as [H1 H2]. unfold receive_all in *. rewrite H1, H2. simpl.
      rewrite <- app_assoc. split; [reflexivity | lia]. }
  destruct H as [H1 H2]. unfold Call_Invitation_Version, Call_Invitation_ClearAll.
  simpl. rewrite H1, H2. repeat split.
Qed.

End InvitationsFacts.

Module CacheViewFacts.
Import EntityCache CacheView.

Lemma present_false_not_in (id : string) (l : list entity) :
  present id l = false -> ~ In id (map ent_id l).
Proof.
  unfold present. intros H Hin. apply in_map_iff in Hin. destruct Hin as [e [<- He]].
  assert (existsb (fun e' => String.eqb (ent_id e') (ent_id e)) l = true)
    by (apply existsb_exists; exists e; split; [exact He | apply String.eqb_refl]).
  congruence.
Qed.

Lemma in_schema_set_attr (t : etype) (k v : string) (l : list (string * string)) :
  existsb (String.eqb k) (schema t) = true -> in_schema t l = true ->
  in_schema t (set_attr k v l) = true.
Proof.
  unfold in_schema. intros Hk. induction l as [|[k' v'] l IH]; simpl; intro Hl.
  - rewrite Hk. reflexivity.
  - apply andb_prop in Hl. destruct Hl as [H1 H2].
    destruct (String.eqb k' k); simpl; rewrite ?Hk, ?H1, ?H2; simpl; auto.
Qed.

Lemma in_schema_set_attrs (t : etype) (fields attrs : list (string * string)) :
  in_schema t fields = true -> in_schema t attrs = true ->
  in_schema t (set_attrs fields attrs) = true.
Proof.
  unfold set_attrs. revert attrs. induction fields as [|[k v] fs IH]; intros attrs Hf Ha;
    simpl; [exact Ha|].
  unfold in_schema in Hf; simpl in Hf. apply andb_prop in Hf. destruct Hf as [Hk Hf].
  apply IH; [exact Hf|]. apply in_schema_set_attr; assumption.
Qed.

Lemma wf_apply_change (t : etype) (l : list entity) (ch : change) :
  wf_collection t l -> wf_change t l ch = true -> wf_collection t (apply_change ch l).
Proof.
  intros [Hnd Hf] Hw. destruct ch as [id attrs|id|id fields]; simpl in *.
  - apply andb_prop in Hw. destruct Hw as [Hw Hs]. apply andb_prop in Hw.
    destruct Hw as [Hi Hp]. apply negb_true_iff in Hp. split.
    + rewrite map_app. simpl. apply NoDup_app; [exact Hnd | repeat constructor; auto |].
      intros x Hx [<-|[]]. exact (present_false_not_in _ _ Hp Hx).
    + apply Forall_app. split; [exact Hf | repeat constructor; assumption].
  - split.
    + clear Hf Hw. induction l as [|e l IH]; simpl; [constructor|].
      inversion Hnd as [|? ? Hn Hnd']; subst.
      destruct (String.eqb (ent_id e) id); simpl; [|constructor]; auto.
      intro Hin. apply Hn. apply in_map_iff in Hin. destruct Hin as [e' [He' Hin]].
      apply filter_In in Hin. apply in_map_iff. exists e'. split; [exact He' | apply Hin].
    + apply Forall_forall. intros e He. apply filter_In in He.
      exact (proj1 (Forall_forall _ l) Hf e (proj1 He)).
  - apply andb_prop in Hw. destruct Hw as [_ Hs]. split.
    + rewrite map_map. erewrite map_ext; [exact Hnd|].
      intro e. destruct (String.eqb (ent_id e) id); reflexivity.
    + apply Forall_map. apply Forall_forall. intros e He.
      destruct (proj1 (Forall_forall _ l) Hf e He) as [H1 H2].
      destruct (String.eqb (ent_id e) id); simpl; split; auto.
      apply in_schema_set_attrs; assumption.
Qed.

(** Invariant of the cache: if every collection has unique 32-character
    ids and attributes within its type's schema, it still has after any
    sequence of deltas is applied, whatever they contain. *)
Theorem apply_all_preserves_wf (cl : client) (ds : list delta) :
  wf_cache cl -> wf_cache (apply_all cl ds).
Proof.
  revert cl. induction ds as [|d ds IH]; intros cl H; simpl; [exact H|].
  apply IH. intro t. unfold Items.
  destruct (EntityCacheFacts.apply_cases cl d t) as [E|[-> [Ha E]]]; rewrite E; simpl.
  - apply H.
  - apply wf_apply_change; [apply H|]. unfold accepts in Ha.
    apply andb_prop in Ha. exact (proj2 Ha).
Qed.

Lemma apply_all_preserves_wf_witness :
  wf_cache (apply_all (mkClient (fun _ => mkCollection [] 0 0) 0)
              [mkDelta ERole 1 (Add "0123456789abcdef0123456789abcdef" [("name", "R1")])]).
Proof.
  apply apply_all_preserves_wf. intro t. split; constructor.
Defined.

Lemma get_entity_none_present (id : string) (l : list entity) :
  present id l = false -> get_entity id l = None.
Proof.
  unfold present. induction l as [|e l IH]; simpl; [reflexivity|].
  destruct (String.eqb (ent_id e) id); simpl; [discriminate | exact IH].
Qed.

Lemma get_apply_change_target (ch : change) (l : list entity) :
  match ch with
  | Add id attrs => present id l = false -> get_entity id (apply_change ch l) = Some attrs
  | Remove id => get_entity id (apply_change ch l) = None
  | Update id fields =>
      get_entity id (apply_change ch l) = option_map (set_attrs fields) (get_entity id l)
  end.
Proof.
  destruct ch as [id attrs|id|id fields]; simpl.
  - unfold present. induction l as [|e l IH]; simpl; intro H.
    + rewrite String.eqb_refl. reflexivity.
    + destruct (String.eqb (ent_id e) id); simpl in H; [discriminate | exact (IH H)].
  - induction l as [|e l IH]; simpl; [reflexivity|].
    destruct (String.eqb (ent_id e) id) eqn:E; simpl; [exact IH|]. rewrite E. exact IH.
  - induction l as [|e l IH]; simpl; [reflexivity|].
    destruct (String.eqb (ent_id e) id) eqn:E; simpl; rewrite E; [reflexivity | exact IH].
Qed.

Lemma get_apply_change_other (ch : change) (l : list entity) (id' : string) :
  id' <> change_id ch -> get_entity id' (apply_change ch l) = get_entity id' l.
Proof.
  intro Hne. destruct ch as [id attrs|id|id fields]; simpl in *.
  - induction l as [|e l IH]; simpl.
    + destruct (String.eqb id id') eqn:E; [apply String.eqb_eq in E; congruence | reflexivity].
    + destruct (String.eqb (ent_id e) id'); [reflexivity | exact IH].
  - induction l as [|e l IH]; simpl; [reflexivity|].
    destruct (String.eqb (ent_id e) id) eqn:E; simpl.
    + apply String.eqb_eq in E.
      destruct (String.eqb (ent_id e) id') eqn:E'; [apply String.eqb_eq in E'; congruence|].
      exact IH.
    + destruct (String.eqb (ent_id e) id'); [reflexivity | exact IH].
  - induction l as [|e l IH]; simpl; [reflexivity|].
    destruct (String.eqb (ent_id e) id) eqn:E; simpl.
    + apply String.eqb_eq in E.
      destruct (String.eqb (ent_id e) id') eqn:E'; [apply String.eqb_eq in E'; congruence|].
      exact IH.
    + destruct (String.eqb (ent_id e) id'); [reflexivity | exact IH].
Qed.

(** What [get(type, id)] reads after an accepted delta: the added
    attributes after an add, "not found" after a remove, the old snapshot
    with the delta's fields written over it after an update; every other
    id of that type, and every id of every other type, reads as before. *)
Theorem get_after_apply (cl : client) (d : delta) :
  accepts cl d = true ->
  (match d_change d with
   | Add id attrs => get (apply cl d) (d_type d) id = Some attrs
   | Remove id => get (apply cl d) (d_type d) id = None
   | Update id fields =>
       get (apply cl d) (d_type d) id = option_map (set_attrs fields) (get cl (d_type d) id)
   end) /\
  (forall id', id' <> change_id (d_change d) ->
     get (apply cl d) (d_type d) id' = get cl (d_type d) id') /\
  (forall t id', t <> d_type d -> get (apply cl d) t id' = get cl t id').
Proof.
  intro Ha. pose proof (EntityCacheFacts.apply_accepted cl d Ha) as Hc.
  unfold get, Items. rewrite Hc. simpl. split; [|split].
  - pose proof (get_apply_change_target (d_change d) (items (cache_of cl (d_type d)))) as Ht.
    unfold accepts in Ha. apply andb_prop in Ha. destruct Ha as [_ Hw].
    destruct (d_change d) as [id attrs|id|id fields]; try exact Ht.
    apply Ht. simpl in Hw. apply andb_prop in Hw. destruct Hw as [Hw _].
    apply andb_prop in Hw. apply negb_true_iff. exact (proj2 Hw).
  - intros id' Hne. apply get_apply_change_other. exact Hne.
  - intros t id' Ht. destruct (EntityCacheFacts.apply_cases cl d t) as [E|[E _]];
      [rewrite E; reflexivity | contradiction].
Qed.

Lemma get_after_apply_witness :
  get (apply (mkClient (fun _ => mkCollection [] 0 0) 0)
             (mkDelta EOperator 1 (Add "0123456789abcdef0123456789abcdef" [("role", "Pilot")])))
      EOperator "0123456789abcdef0123456789abcdef" = Some [("role", "Pilot")].
Proof.
  exact (proj1 (get_after_apply (mkClient (fun _ => mkCollection [] 0 0) 0)
                  (mkDelta EOperator 1 (Add "0123456789abcdef0123456789abcdef" [("role", "Pilot")]))
                  eq_refl)).
Defined.

Lemma remove_after_add (id : string) (attrs : list (string * string)) (l : list entity) :
  present id l = false ->
  filter (fun e => negb (String.eqb (ent_id e) id)) (l ++ [mkEntity id attrs])%list = l.
Proof.
  unfold present. intro Hp. rewrite filter_app. simpl. rewrite String.eqb_refl. simpl.
  rewrite app_nil_r. induction l as [|e l IH]; simpl; [reflexivity|].
  simpl in Hp. apply orb_false_iff in Hp. destruct Hp as [He Hp].
  rewrite He. simpl. rewrite (IH Hp). reflexivity.
Qed.

(** An accepted add of an id followed by an accepted remove of the same id
    (in the same collection) restores the collection's contents, while its
    version counter has gone up by two. *)
Theorem add_then_remove_restores (cl : client) (d1 d2 : delta) (id : string)
    (attrs : list (string * string)) :
  d_change d1 = Add id attrs -> d_change d2 = Remove id -> d_type d2 = d_type d1 ->
  accepts cl d1 = true -> accepts (apply cl d1) d2 = true ->
  Items (apply (apply cl d1) d2) (d_type d1) = Items cl (d_type d1) /\
  Version (apply (apply cl d1) d2) (d_type d1) = S (S (Version cl (d_type d1))).
Proof.
  intros H1 H2 Ht Ha1 Ha2.
  pose proof (EntityCacheFacts.apply_accepted cl d1 Ha1) as C1.
  pose proof (EntityCacheFacts.apply_accepted (apply cl d1) d2 Ha2) as C2.
  rewrite Ht in C2. unfold Items, Version. rewrite C2. simpl.
  unfold Items, Version. rewrite C1. simpl. rewrite H1, H2. simpl. split; [|reflexivity].
  unfold accepts in Ha1. apply andb_prop in Ha1. destruct Ha1 as [_ Hw].
  rewrite H1 in Hw. simpl in Hw. apply andb_prop in Hw. destruct Hw as [Hw _].
  apply andb_prop in Hw. destruct Hw as [_ Hp]. apply negb_true_iff in Hp.
  exact (remove_after_add id attrs _ Hp).
Qed.

Lemma add_then_remove_restores_witness :
  let cl := mkClient (fun _ => mkCollection [] 0 0) 0 in
  let d1 := mkDelta ECloud 1 (Add "0123456789abcdef0123456789abcdef" [("name", "c")]) in
  let d2 := mkDelta ECloud 2 (Remove "0123456789abcdef0123456789abcdef") in
  Items (apply (apply cl d1) d2) ECloud = [] .
Proof.
  cbv zeta.
  exact (proj1 (add_then_remove_restores (mkClient (fun _ => mkCollection [] 0 0) 0)
    (mkDelta ECloud 1 (Add "0123456789abcdef0123456789abcdef" [("name", "c")]))
    (mkDelta ECloud 2 (Remove "0123456789abcdef0123456789abcdef"))
    "0123456789abcdef0123456789abcdef" [("name", "c")] eq_refl eq_refl eq_refl eq_refl eq_refl)).
Defined.

Lemma attr_get_set_attr (f k v : string) (l : list (string * string)) :
  attr_get f (set_attr k v l) = if String.eqb k f then Some v else attr_get f l.
Proof.
  induction l as [|[k' v'] l IH]; simpl; [destruct (String.eqb k f); reflexivity|].
  destruct (String.eqb k' k) eqn:E1; simpl.
  - apply String.eqb_eq in E1. subst k'.
    destruct (String.eqb k f); reflexivity.
  - rewrite IH. destruct (String.eqb k f) eqn:E2, (String.eqb k' f) eqn:E3; try reflexivity.
    apply String.eqb_eq in E2, E3. subst. rewrite String.eqb_refl in E1. discriminate.
Qed.

Lemma attr_get_app (f : string) (l1 l2 : list (string * string)) :
  attr_get f (l1 ++ l2)%list =
  match attr_get f l1 with Some v => Some v | None => attr_get f l2 end.
Proof.
  induction l1 as [|[k v] l1 IH]; simpl; [reflexivity|].
  destruct (String.eqb k f); [reflexivity | exact IH].
Qed.

Lemma attr_get_set_attrs (f : string) (fields attrs : list (string * string)) :
  attr_get f (set_attrs fields attrs) = attr_get f (rev fields ++ attrs)%list.
Proof.
  unfold set_attrs. revert attrs. induction fields as [|[k v] fs IH]; intro attrs; simpl;
    [reflexivity|].
  rewrite IH, <- app_assoc. simpl.
  rewrite !attr_get_app, attr_get_set_attr. simpl. reflexivity.
Qed.

(** After an accepted update of operator [uuid], [Operator_GetField] reads
    for each field the last value the delta wrote to it, and for fields
    the delta does not name the value it read before (the empty string if
    none). *)
Theorem operator_getfield_after_update (cl : client) (d : delta) (uuid : string)
    (fields : list (string * string)) (f : string) :
  d_type d = EOperator -> d_change d = Update uuid fields -> accepts cl d = true ->
  Operator_GetField (apply cl d) uuid f =
  match attr_get f (rev fields) with
  | Some v => v
  | None => Operator_GetField cl uuid f
  end.
Proof.
  intros Ht Hc Ha. destruct (get_after_apply cl d Ha) as [Hg _].
  rewrite Hc, Ht in Hg. unfold Operator_GetField. rewrite Hg.
  unfold accepts in Ha. apply andb_prop in Ha. destruct Ha as [_ Hw].
  rewrite Hc in Hw. simpl in Hw. apply andb_prop in Hw. destruct Hw as [Hw _].
  apply andb_prop in Hw. destruct Hw as [_ Hp].
  destruct (get cl EOperator uuid) as [attrs|] eqn:E; simpl.
  - rewrite attr_get_set_attrs, attr_get_app. destruct (attr_get f (rev fields)); reflexivity.
  - exfalso. unfold get, Items in E. rewrite Ht in Hp.
    unfold present in Hp. apply existsb_exists in Hp. destruct Hp as [e [He Hid]].
    apply String.eqb_eq in Hid. subst uuid.
    clear -He E. induction (items (cache_of cl EOperator)) as [|e' l IH]; simpl in *; [contradiction|].
    destruct (String.eqb (ent_id e') (ent_id e)) eqn:Q; [discriminate|].
    destruct He as [<-|He]; [rewrite String.eqb_refl in Q; discriminate | exact (IH He E)].
Qed.

Lemma operator_getfield_after_update_witness :
  let id := "0123456789abcdef0123456789abcdef" in
  let cl := apply (mkClient (fun _ => mkCollection [] 0 0) 0)
                  (mkDelta EOperator 1 (Add id [("clientname", "op1"); ("role", "Pilot");
                                                ("connected", "false")])) in
  Operator_GetField (apply cl (mkDelta EOperator 2
                       (Update id [("connected", "false"); ("connected", "true")])))
                    id "connected" = "true".
Proof.
  cbv zeta.
  rewrite (operator_getfield_after_update
    (apply (mkClient (fun _ => mkCollection [] 0 0) 0)
           (mkDelta EOperator 1 (Add "0123456789abcdef0123456789abcdef"
                                   [("clientname", "op1"); ("role", "Pilot"); ("connected", "false")])))
    (mkDelta EOperator 2 (Update "0123456789abcdef0123456789abcdef"
                            [("connected", "false"); ("connected", "true")]))
    "0123456789abcdef0123456789abcdef" [("connected", "false"); ("connected", "true")]
    "connected" eq_refl eq_refl);
    [reflexivity | vm_compute; reflexivity].
Defined.

End CacheViewFacts.

Module PumpFacts.
Import Triads Pump.

(** [VRCC_Update] hands the entity deltas among the drained messages to
    the entity cache in the order received, as [apply_all] over exactly
    those deltas; it never touches the outgoing requests. *)
Theorem pump_cache_is_apply_all (st : state) (ms : list msg) :
  ecache (VRCC_Update st ms) = EntityCache.apply_all (ecache st) (deltas_of ms) /\
  outbox (VRCC_Update st ms) = outbox st.
Proof.
  revert st. induction ms as [|m ms IH] using rev_ind; intro st; [split; reflexivity|].
  unfold VRCC_Update in *. rewrite fold_left_app. simpl.
  unfold deltas_of. rewrite flat_map_app. fold (deltas_of ms).
  destruct (IH st) as [H1 H2].
  destruct m as [g w|g| |d]; simpl; rewrite ?H1, ?H2, ?app_nil_r; try (split; reflexivity).
  unfold EntityCache.apply_all. rewrite fold_left_app. split; reflexivity.
Qed.

(** Between [setX(v)] and the server's reply, update cycles that bring
    only messages for other fields or entity deltas keep X's triad pending
    exactly as the set left it: set value [v], active value unchanged. *)
Theorem pending_triad_persists (st : state) (f : tfield) (v : string) (ms : list msg) :
  Forall (fun m => touches f m = false) ms ->
  triads (VRCC_Update (set_field f v st) ms) f = mkTriad v (activeValue (triads st f)).
Proof.
  intro H. rewrite (TriadsFacts.update_untouched ms (set_field f v st) f H).
  unfold set_field; simpl. apply TriadsFacts.set_triad_same.
Qed.

Lemma pending_triad_persists_witness :
  let st := mkState (fun _ => mkTriad "" "") [] (EntityCache.mkClient (fun _ => EntityCache.mkCollection [] 0 0) 0) in
  Role_IdSet (VRCC_Update (Role_SetRole "0123456789abcdef0123456789abcdef" st)
                          [MConfirm FEntityState "E1"; MReject (FRadioNet 0)])
  = "0123456789abcdef0123456789abcdef".
Proof.
  cbv zeta. unfold Role_IdSet, Role_SetRole.
  rewrite (pending_triad_persists
             (mkState (fun _ => mkTriad "" "") []
                      (EntityCache.mkClient (fun _ => EntityCache.mkCollection [] 0 0) 0))
             FRole "0123456789abcdef0123456789abcdef" [MConfirm FEntityState "E1"; MReject (FRadioNet 0)]);
    [reflexivity | repeat constructor].
Defined.

End PumpFacts.

Module CallsMore.
Import Calls.

Lemma leave_eps_find_other (eid eid' : string) (l l' : list endpoint) :
  eid' <> eid -> leave_eps eid l = Some l' -> find_ep eid' l' = find_ep eid' l.
Proof.
  intro Hne. revert l'. induction l as [|e l IH]; simpl; intros l' H; [discriminate|].
  destruct (String.eqb (ep_id e) eid) eqn:E.
  - apply String.eqb_eq in E.
    destruct (progress_eqb (ep_state e) Signaling); [|discriminate]. injection H as <-.
    destruct (String.eqb (ep_id e) eid') eqn:E'; [apply String.eqb_eq in E'; congruence|].
    reflexivity.
  - destruct (leave_eps eid l) as [l''|] eqn:L; simpl in H; [|discriminate].
    injection H as <-. simpl. rewrite (IH l'' eq_refl). reflexivity.
Qed.

Lemma find_call_none (cid : string) (cs : list call) :
  ~ In cid (map call_id cs) -> find_call cid cs = None.
Proof.
  induction cs as [|c cs IH]; simpl; intro H; [reflexivity|].
  destruct (String.eqb (call_id c) cid) eqn:E; [apply String.eqb_eq in E; tauto|].
  apply IH. tauto.
Qed.

(** With call ids unique, serving a leave request for [(cid, eid)] leaves
    the state read by [Call_Endpoint_State] for every other pair
    [(cid', eid')] unchanged: other endpoints of the call and endpoints of
    other calls are not affected, even when the call is destroyed. *)
Theorem leave_calls_frame (cs : list call) (cid eid cid' eid' : string) :
  NoDup (map call_id cs) -> (cid' <> cid \/ eid' <> eid) ->
  Call_Endpoint_State (leave_calls cid eid cs) cid' eid' = Call_Endpoint_State cs cid' eid'.
Proof.
  unfold Call_Endpoint_State. intros Hnd Hne.
  induction cs as [|c cs IH]; simpl; [reflexivity|].
  inversion Hnd as [|? ? Hn Hnd']; subst.
  destruct (String.eqb (call_id c) cid) eqn:E.
  - apply String.eqb_eq in E.
    destruct (String.eqb cid cid') eqn:E'.
    + apply String.eqb_eq in E'. subst cid'.
      assert (Heid : eid' <> eid) by (destruct Hne; [contradiction|assumption]).
      destruct (leave_eps eid (endpoints c)) as [[|e eps]|] eqn:L; simpl.
      * rewrite find_call_none by (rewrite <- E; exact Hn).
        rewrite ?E, ?String.eqb_refl.
        rewrite <- (leave_eps_find_other eid eid' _ _ Heid L). reflexivity.
      * rewrite ?E, ?String.eqb_refl.
        exact (leave_eps_find_other eid eid' _ _ Heid L).
      * rewrite ?E, ?String.eqb_refl. reflexivity.
    + destruct (leave_eps eid (endpoints c)) as [[|e eps]|] eqn:L; simpl; rewrite ?E, ?E';
        reflexivity.
  - simpl. destruct (String.eqb (call_id c) cid'); [reflexivity | exact (IH Hnd')].
Qed.

Lemma leave_calls_frame_witness :
  Call_Endpoint_State
    (leave_calls "C1" "E2" [mkCall "C1" [mkEndpoint "E2" Signaling]; mkCall "C2" [mkEndpoint "E2" Holding]])
    "C2" "E2" = Some Holding.
Proof.
  rewrite leave_calls_frame; [reflexivity | repeat constructor; simpl; intuition discriminate | left; discriminate].
Defined.

Lemma leave_eps_gone (eid : string) (l l' : list endpoint) :
  NoDup (map ep_id l) -> leave_eps eid l = Some l' -> find_ep eid l' = None.
Proof.
  revert l'. induction l as [|e l IH]; simpl; intros l' Hnd H; [discriminate|].
  inversion Hnd as [|? ? Hn Hnd']; subst.
  destruct (String.eqb (ep_id e) eid) eqn:E.
  - apply String.eqb_eq in E. subst eid.
    destruct (progress_eqb (ep_state e) Signaling); [|discriminate]. injection H as <-.
    clear -Hn. induction l as [|e' l IH]; simpl; [reflexivity|].
    destruct (String.eqb (ep_id e') (ep_id e)) eqn:E'.
    + apply String.eqb_eq in E'. exfalso. apply Hn. left. exact E'.
    + apply IH. intro Hin. apply Hn. right. exact Hin.
  - destruct (leave_eps eid l) as [l''|] eqn:L; simpl in H; [|discriminate].
    injection H as <-. simpl. rewrite E. exact (IH l'' Hnd' eq_refl).
Qed.

Lemma leave_eps_some_none (eid : string) (l : list endpoint) :
  find_ep eid l = Some Signaling -> leave_eps eid l <> None.
Proof.
  induction l as [|e l IH]; simpl; intro H; [discriminate|].
  destruct (String.eqb (ep_id e) eid).
  - injection H as H. rewrite H. simpl. discriminate.
  - destruct (leave_eps eid l); simpl; [discriminate | exact (IH H)].
Qed.

(** With call ids and the call's endpoint ids unique, a served leave
    request for an endpoint in the [Signaling] state removes it:
    [Call_Endpoint_State] no longer finds it in the call. *)
Theorem leave_signaling_removes (cs : list call) (cid eid : string) :
  NoDup (map call_id cs) -> Forall (fun c => NoDup (map ep_id (endpoints c))) cs ->
  Call_Endpoint_State cs cid eid = Some Signaling ->
  Call_Endpoint_State (leave_calls cid eid cs) cid eid = None.
Proof.
  unfold Call_Endpoint_State. intros Hnd Hep Hs.
  induction cs as [|c cs IH]; simpl in *; [discriminate|].
  inversion Hnd as [|? ? Hn Hnd']; subst. inversion Hep as [|? ? Hc Hep']; subst.
  destruct (String.eqb (call_id c) cid) eqn:E.
  - apply String.eqb_eq in E.
    destruct (leave_eps eid (endpoints c)) as [l'|] eqn:L.
    + assert (G : find_ep eid l' = None) by exact (leave_eps_gone eid _ _ Hc L).
      destruct l' as [|e eps]; simpl.
      * rewrite find_call_none by (rewrite <- E; exact Hn). reflexivity.
      * rewrite E, String.eqb_refl. exact G.
    + exfalso. pose proof (leave_eps_some_none eid (endpoints c) Hs) as X. congruence.
  - simpl. rewrite E. exact (IH Hnd' Hep' Hs).
Qed.

Lemma leave_signaling_removes_witness :
  Call_Endpoint_State
    (leave_calls "C1" "E2" [mkCall "C1" [mkEndpoint "E1" Connected; mkEndpoint "E2" Signaling]])
    "C1" "E2" = None.
Proof.
  apply leave_signaling_removes;
    [repeat constructor; simpl; tauto | repeat constructor; simpl; intuition discriminate
    | reflexivity].
Defined.

Lemma in_map_ep_id (eid : string) (eps : list endpoint) :
  In eid (map ep_id eps) <-> exists p, find_ep eid eps = Some p.
Proof.
  induction eps as [|e eps IH]; simpl.
  - split; [intros []|intros [p H]; discriminate].
  - destruct (String.eqb (ep_id e) eid) eqn:E.
    + apply String.eqb_eq in E. split; [intros _; exists (ep_state e); reflexivity | left; exact E].
    + rewrite <- IH. split; [intros [H|H]; [apply String.eqb_neq in E; contradiction | exact H]
                            | intro H; right; exact H].
Qed.

(** [Call_Endpoint_IDFirst] of an unknown call is the empty string; for a
    call whose endpoint ids have 32 characters, the cursor loop over its
    endpoints lists exactly the ids for which [Call_Endpoint_State] finds
    a state in that call. *)
Theorem endpoint_cursor_lists_members (cs : list call) (cid : string) (fuel : nat) :
  Forall (fun s => String.length s = 32) (Cursor.ids (CallCursor.endpoint_cursor cs cid)) ->
  List.length (Cursor.ids (CallCursor.endpoint_cursor cs cid)) <= fuel ->
  (find_call cid cs = None -> CallCursor.Call_Endpoint_IDFirst cs cid = "") /\
  (forall eid, In eid (Cursor.cursor_enum fuel (CallCursor.endpoint_cursor cs cid)) <->
               exists p, Call_Endpoint_State cs cid eid = Some p).
Proof.
  intros Hl Hf. split.
  - intro H. unfold CallCursor.Call_Endpoint_IDFirst, CallCursor.endpoint_cursor.
    rewrite H. reflexivity.
  - intro eid. rewrite (CursorFacts.cursor_enum_ids _ fuel Hl Hf).
    unfold CallCursor.endpoint_cursor, Call_Endpoint_State; simpl.
    destruct (find_call cid cs) as [c|].
    + apply in_map_ep_id.
    + simpl. split; [intros []|intros [p H]; discriminate].
Qed.

Lemma endpoint_cursor_lists_members_witness :
  let cs := [mkCall "C1" [mkEndpoint "0123456789abcdef0123456789abcdef" Connected]] in
  In "0123456789abcdef0123456789abcdef" (Cursor.cursor_enum 1 (CallCursor.endpoint_cursor cs "C1")).
Proof.
  cbv zeta.
  apply (endpoint_cursor_lists_members
           [mkCall "C1" [mkEndpoint "0123456789abcdef0123456789abcdef" Connected]] "C1" 1);
    [repeat constructor | simpl; lia | exists Connected; reflexivity].
Defined.

End CallsMore.
